(** * MetamaskInpageProvider: a shallow embedding and its verified properties

    Source: [packages/web3-providers/src/providers/MetamaskInpageProvider.js].

    The provider is a JavaScript class that extends [AbstractSocketProvider]
    (itself an event emitter) and wraps a transport object, [this.connection],
    which is an event emitter owned by the browser extension.  The embedding
    threads one explicit state, [World], through every method: it holds the
    transport (its listener table, its connectivity flag, the writes it has
    accepted), the adapter's own listener table, the promises created so far
    and a chronological trace of the calls that cross an object boundary. *)

From Stdlib Require Import ZArith String List Bool Lia.
From stdpp Require Import base list strings.

Local Open Scope Z_scope.
Local Open Scope nat_scope.

(** ** JavaScript values *)

(** Responses, errors and notification arguments are plain JSON-like data.
    Numbers are the integers; correlation ids are numbers or strings. *)
Local Unset Elimination Schemes.
Inductive value : Type :=
| VUndefined
| VNull
| VBool (b : bool)
| VNum (n : Z)
| VStr (s : string)
| VArr (items : list value)
| VObj (props : list (string * value)).
Local Set Elimination Schemes.

(** [===] on data: same constructor, same contents. *)
Fixpoint value_eqb (a b : value) {struct a} : bool :=
  match a, b with
  | VUndefined, VUndefined => true
  | VNull, VNull => true
  | VBool x, VBool y => Bool.eqb x y
  | VNum x, VNum y => Z.eqb x y
  | VStr x, VStr y => String.eqb x y
  | VArr xs, VArr ys =>
      (fix items_eqb (xs ys : list value) {struct xs} : bool :=
         match xs, ys with
         | [], [] => true
         | x :: xs', y :: ys' => value_eqb x y && items_eqb xs' ys'
         | _, _ => false
         end) xs ys
  | VObj ps, VObj qs =>
      (fix props_eqb (ps qs : list (string * value)) {struct ps} : bool :=
         match ps, qs with
         | [], [] => true
         | (k, x) :: ps', (k', y) :: qs' =>
             String.eqb k k' && value_eqb x y && props_eqb ps' qs'
         | _, _ => false
         end) ps qs
  | _, _ => false
  end.

(** JavaScript truthiness, as tested by [if (!error)]. *)
Definition truthy (v : value) : bool :=
  match v with
  | VUndefined | VNull => false
  | VBool b => b
  | VNum n => negb (Z.eqb n 0)
  | VStr s => negb (String.eqb s "")
  | VArr _ | VObj _ => true
  end.

Fixpoint lookup_prop (name : string) (props : list (string * value)) : value :=
  match props with
  | [] => VUndefined
  | (k, v) :: rest => if String.eqb k name then v else lookup_prop name rest
  end.

Definition is_nullish (v : value) : bool :=
  match v with
  | VUndefined | VNull => true
  | _ => false
  end.

(** What the property read [v.name] yields when it does not raise, for the
    names the adapter reads ([result], [error], [id]): a missing property
    reads as [undefined]. *)
Definition field (name : string) (v : value) : value :=
  match v with
  | VObj props => lookup_prop name props
  | _ => VUndefined
  end.

(** Property read [v.name]: [None] is the TypeError raised on [undefined]
    and [null]. *)
Definition get_prop (name : string) (v : value) : option value :=
  if is_nullish v then None else Some (field name v).

(** Number of constructors of a value. *)
Fixpoint value_size (v : value) : nat :=
  match v with
  | VArr items =>
      S ((fix items_size (l : list value) : nat :=
            match l with
            | [] => 0
            | x :: l' => value_size x + items_size l'
            end) items)
  | VObj props =>
      S ((fix props_size (l : list (string * value)) : nat :=
            match l with
            | [] => 0
            | (_, x) :: l' => value_size x + props_size l'
            end) props)
  | _ => 1
  end.

(** The error raised by a property read on [undefined] or [null]. *)
Definition type_error : value :=
  VObj [("name", VStr "TypeError")].

(** ** Payloads *)

(** A JSON-RPC request object, [{jsonrpc, id, method, params}]. *)
Record Request : Type := mkRequest {
  jsonrpc : string;
  id : value;
  method : string;
  params : list value
}.

(** What [sendPayload] receives: one request object, or the array that
    [sendBatch] builds. *)
Inductive Payload : Type :=
| Single (req : Request)
| Batch (reqs : list Request).

(** [payload.id]: an array has no [id] property. *)
Definition payload_id (payload : Payload) : value :=
  match payload with
  | Single req => id req
  | Batch _ => VUndefined
  end.

(** ** Function objects *)

(** The handler methods of the class. *)
Inductive Handler : Type :=
| OnAccountsChanged
| OnReady
| OnNetworkChanged
| OnMessage
| OnError.

(** A function object.  [this.onMessage] evaluates to the method stored on
    the prototype; [this.onMessage.bind(this)] allocates a new function
    object, distinct from every other one, that calls the method with the
    adapter as receiver. *)
Inductive Fn : Type :=
| Proto (h : Handler)
| Bound (n : nat) (h : Handler).

Global Instance Handler_eq_dec : EqDecision Handler.
Proof. solve_decision. Defined.

Global Instance Fn_eq_dec : EqDecision Fn.
Proof. solve_decision. Defined.

(** ** Promises *)

Inductive PState : Type :=
| Pending
| Fulfilled (v : value)
| Rejected (e : value).

(** A promise of the store: one made by [new Promise(executor)], with its
    state, or [p.then(f)] for the function [f] that [send] passes. *)
Inductive Promise : Type :=
| Root (st : PState)
| Then (p : nat).

(** ** Queued methods *)

(** The part of an [AbstractMethod] that [sendBatch] reads. *)
Record MethodData : Type := mkMethodData {
  rpcMethod : string;
  parameters : list value
}.

(** A queued method object: its state, and its [beforeExecution] hook, which
    receives the module instance and mutates the method in place. *)
Record AbstractMethod : Type := mkMethod {
  mdata : MethodData;
  beforeExecution : value -> MethodData -> MethodData
}.

(** ** Trace *)

(** Calls that leave the adapter or reach a caller-owned object, in the
    order in which they are made. *)
Inductive Event : Type :=
| CallOn (channel : string) (f : Fn)
| CallRemoveListener (channel : string) (f : Fn)
| CallRemoveAllListeners (event : value)
| CallSuperRemoveAllListeners (event : value)
| Notify (event : value) (arg : value) (listener : nat)
| CallBeforeExecution (m : nat) (moduleInstance : value)
| CallToPayload (name : string) (args : list value)
| CallSend (body : Payload) (p : nat)
| CallResolve (p : nat) (v : value)
| CallReject (p : nat) (e : value).

(** ** State *)

(** The transport, [this.connection]: an event emitter with a connectivity
    query and a write operation that takes a completion callback.  A write
    is recorded with its body and the promise its callback settles. *)
Record Connection : Type := mkConnection {
  listeners : list (string * Fn);
  isConnected : bool;
  written : list (Payload * nat)
}.

Record World : Type := mkWorld {
  connection : Connection;
  host : string;
  (* event names defined by the base class *)
  SOCKET_MESSAGE : string;
  SOCKET_ERROR : string;
  SOCKET_NETWORK_CHANGED : string;
  SOCKET_ACCOUNTS_CHANGED : string;
  (* the adapter's own listener table: event name or id, listener *)
  events : list (value * nat);
  (* allocation of function objects and correlation ids *)
  nextBound : nat;
  messageId : Z;
  (* the method objects the queued references point to *)
  heap : list AbstractMethod;
  (* promise store *)
  promises : list Promise;
  trace : list Event
}.

Definition set_connection (c : Connection) (w : World) : World :=
  mkWorld c (host w) (SOCKET_MESSAGE w) (SOCKET_ERROR w)
    (SOCKET_NETWORK_CHANGED w) (SOCKET_ACCOUNTS_CHANGED w) (events w)
    (nextBound w) (messageId w) (heap w) (promises w) (trace w).

Definition set_host (h : string) (w : World) : World :=
  mkWorld (connection w) h (SOCKET_MESSAGE w) (SOCKET_ERROR w)
    (SOCKET_NETWORK_CHANGED w) (SOCKET_ACCOUNTS_CHANGED w) (events w)
    (nextBound w) (messageId w) (heap w) (promises w) (trace w).

Definition set_events (e : list (value * nat)) (w : World) : World :=
  mkWorld (connection w) (host w) (SOCKET_MESSAGE w) (SOCKET_ERROR w)
    (SOCKET_NETWORK_CHANGED w) (SOCKET_ACCOUNTS_CHANGED w) e
    (nextBound w) (messageId w) (heap w) (promises w) (trace w).

Definition set_nextBound (n : nat) (w : World) : World :=
  mkWorld (connection w) (host w) (SOCKET_MESSAGE w) (SOCKET_ERROR w)
    (SOCKET_NETWORK_CHANGED w) (SOCKET_ACCOUNTS_CHANGED w) (events w)
    n (messageId w) (heap w) (promises w) (trace w).

Definition set_messageId (n : Z) (w : World) : World :=
  mkWorld (connection w) (host w) (SOCKET_MESSAGE w) (SOCKET_ERROR w)
    (SOCKET_NETWORK_CHANGED w) (SOCKET_ACCOUNTS_CHANGED w) (events w)
    (nextBound w) n (heap w) (promises w) (trace w).

Definition set_heap (h : list AbstractMethod) (w : World) : World :=
  mkWorld (connection w) (host w) (SOCKET_MESSAGE w) (SOCKET_ERROR w)
    (SOCKET_NETWORK_CHANGED w) (SOCKET_ACCOUNTS_CHANGED w) (events w)
    (nextBound w) (messageId w) h (promises w) (trace w).

Definition set_promises (ps : list Promise) (w : World) : World :=
  mkWorld (connection w) (host w) (SOCKET_MESSAGE w) (SOCKET_ERROR w)
    (SOCKET_NETWORK_CHANGED w) (SOCKET_ACCOUNTS_CHANGED w) (events w)
    (nextBound w) (messageId w) (heap w) ps (trace w).

Definition set_trace (t : list Event) (w : World) : World :=
  mkWorld (connection w) (host w) (SOCKET_MESSAGE w) (SOCKET_ERROR w)
    (SOCKET_NETWORK_CHANGED w) (SOCKET_ACCOUNTS_CHANGED w) (events w)
    (nextBound w) (messageId w) (heap w) (promises w) t.

Definition set_listeners (l : list (string * Fn)) (c : Connection) : Connection :=
  mkConnection l (isConnected c) (written c).

Definition set_written (ws : list (Payload * nat)) (c : Connection) : Connection :=
  mkConnection (listeners c) (isConnected c) ws.

(** Append one call to the trace. *)
Definition log (e : Event) (w : World) : World :=
  set_trace (trace w ++ [e]) w.

(** ** The transport's event emitter *)

(** The transport is an event emitter in the Node.js style: [on] appends the
    function to the channel's listeners without looking for a previous
    registration, [removeListener] removes the most recently added
    registration of that same function object and does nothing when there is
    none, and a notification calls the channel's listeners in registration
    order. *)
Definition same_entry (channel : string) (f : Fn) (e : string * Fn) : bool :=
  String.eqb (fst e) channel && bool_decide (snd e = f).

Fixpoint remove_first (channel : string) (f : Fn) (l : list (string * Fn))
  : list (string * Fn) :=
  match l with
  | [] => []
  | e :: rest =>
      if same_entry channel f e then rest else e :: remove_first channel f rest
  end.

Definition emitter_on (channel : string) (f : Fn) (l : list (string * Fn))
  : list (string * Fn) :=
  l ++ [(channel, f)].

Definition emitter_removeListener (channel : string) (f : Fn)
    (l : list (string * Fn)) : list (string * Fn) :=
  rev (remove_first channel f (rev l)).

Definition on_channel (channel : string) (l : list (string * Fn)) : list Fn :=
  map snd (List.filter (fun e => String.eqb (fst e) channel) l).

(** [this.connection.on(channel, f)] *)
Definition connection_on (channel : string) (f : Fn) (w : World) : World :=
  log (CallOn channel f)
    (set_connection
       (set_listeners (emitter_on channel f (listeners (connection w)))
          (connection w)) w).

(** [this.connection.removeListener(channel, f)] *)
Definition connection_removeListener (channel : string) (f : Fn) (w : World)
  : World :=
  log (CallRemoveListener channel f)
    (set_connection
       (set_listeners
          (emitter_removeListener channel f (listeners (connection w)))
          (connection w)) w).

(** [this.handler.bind(this)]: a new function object. *)
Definition bind (h : Handler) (w : World) : Fn * World :=
  (Bound (nextBound w) h, set_nextBound (S (nextBound w)) w).

(** ** The adapter's own event emitter *)

(** Listeners registered on the adapter under an event name or a
    correlation id, in registration order. *)
Definition listeners_under (event : value) (table : list (value * nat))
  : list nat :=
  map snd (List.filter (fun e => value_eqb (fst e) event) table).

(** [this.on(event, listener)], as callers of the adapter use it. *)
Definition on (event : value) (listener : nat) (w : World) : World :=
  set_events (events w ++ [(event, listener)]) w.

(** [this.emit(event, arg)]: every listener under [event] is called with
    [arg]. *)
Definition emit (event : value) (arg : value) (w : World) : World :=
  set_trace (trace w ++ map (Notify event arg) (listeners_under event (events w))) w.

(** Modelled from the spec: the inherited [removeAllListeners] of the base
    class [AbstractSocketProvider], which is not among the sources.  It
    detaches one specific outward channel or, with no argument (the event
    is [undefined]), all channels; removing a channel that was never added
    changes nothing. *)
Definition super_removeAllListeners (event : value) (w : World) : World :=
  let w := log (CallSuperRemoveAllListeners event) w in
  match event with
  | VUndefined => set_events [] w
  | _ =>
      set_events
        (List.filter (fun e => negb (value_eqb (fst e) event)) (events w)) w
  end.

(** Modelled from the spec: the inherited [onReady] of the base class, the
    adapter-level ready signal derived from a network-change notification. *)
Definition super_onReady (event : value) (w : World) : World :=
  emit (VStr "ready") event w.

(** Modelled from the spec: the inherited [onError] of the base class; a
    native error notification is forwarded verbatim as an outward error
    event and settles no pending call. *)
Definition super_onError (error : value) (w : World) : World :=
  emit (VStr "error") error w.

(** Modelled from the spec: the inherited [onMessage] of the base class, the
    message-dispatch path; the response is delivered on the outward message
    channel and to the listeners registered under the response's own
    correlation id, and to no other id. *)
Definition super_onMessage (response : value) (w : World) : World :=
  let w := emit (VStr (SOCKET_MESSAGE w)) response w in
  match get_prop "id" response with
  | Some i => emit i response w
  | None => w
  end.

(** ** The class *)

(** The methods follow the source in its order. *)

(** The constructor: [super(inpageProvider, null); this.host = 'metamask'].
    The event names that the base constructor defines are arguments. *)
Definition constructor (inpageProvider : Connection)
    (message error networkChanged accountsChanged : string) : World :=
  set_host "metamask"
    (mkWorld inpageProvider "" message error networkChanged accountsChanged
       [] 0 0%Z [] [] []).

Definition registerEventListeners (w : World) : World :=
  let '(f, w) := bind OnAccountsChanged w in
  let w := connection_on "accountsChanged" f w in
  let '(f, w) := bind OnReady w in
  let w := connection_on "networkChanged" f w in
  let '(f, w) := bind OnNetworkChanged w in
  let w := connection_on "networkChanged" f w in
  let '(f, w) := bind OnMessage w in
  let w := connection_on "data" f w in
  let '(f, w) := bind OnError w in
  connection_on "error" f w.

Definition onMessage (metamaskParam payload : value) (w : World) : World :=
  super_onMessage payload w.

(** The [switch] compares [event] with each case label by [===]; the first
    label that matches is taken. *)
Definition removeAllListeners (event : value) (w : World) : World :=
  let w := log (CallRemoveAllListeners event) w in
  let w :=
    if value_eqb event (VStr (SOCKET_NETWORK_CHANGED w)) then
      connection_removeListener "networkChanged" (Proto OnNetworkChanged) w
    else if value_eqb event (VStr (SOCKET_ACCOUNTS_CHANGED w)) then
      connection_removeListener "accountsChanged" (Proto OnAccountsChanged) w
    else if value_eqb event (VStr (SOCKET_MESSAGE w)) then
      connection_removeListener "data" (Proto OnMessage) w
    else if value_eqb event (VStr (SOCKET_ERROR w)) then
      connection_removeListener "error" (Proto OnError) w
    else w in
  super_removeAllListeners event w.

(** [removeAllSocketListeners]: two removals on the transport, on the
    channels named by the base class's constants, then the inherited
    method.  The inherited method is not among the sources and the spec
    does not describe it, so it is an argument. *)
Definition removeAllSocketListeners
    (super_removeAllSocketListeners : World -> World) (w : World) : World :=
  let w :=
    connection_removeListener (SOCKET_NETWORK_CHANGED w)
      (Proto OnNetworkChanged) w in
  let w :=
    connection_removeListener (SOCKET_ACCOUNTS_CHANGED w)
      (Proto OnAccountsChanged) w in
  super_removeAllSocketListeners w.

Definition onNetworkChanged (networkId : value) (w : World) : World :=
  emit (VStr "networkChanged") networkId w.

Definition onAccountsChanged (accounts : value) (w : World) : World :=
  emit (VStr "accountsChanged") accounts w.

Definition disconnect (w : World) : bool * World :=
  (true, w).

Definition connected (w : World) : bool :=
  isConnected (connection w).

(** ** Native notifications *)

Definition arg (n : nat) (args : list value) : value :=
  nth n args VUndefined.

Definition call_handler (h : Handler) (args : list value) (w : World) : World :=
  match h with
  | OnAccountsChanged => onAccountsChanged (arg 0 args) w
  | OnReady => super_onReady (arg 0 args) w
  | OnNetworkChanged => onNetworkChanged (arg 0 args) w
  | OnMessage => onMessage (arg 0 args) (arg 1 args) w
  | OnError => super_onError (arg 0 args) w
  end.

(** A listener called by the transport.  A bound function runs its handler
    on the adapter.  A prototype method registered as it is would run with
    the transport as its receiver; that call is outside the adapter and is
    reported as a fault. *)
Definition call_fn (f : Fn) (args : list value) (w : World) : option World :=
  match f with
  | Bound _ h => Some (call_handler h args w)
  | Proto _ => None
  end.

Fixpoint call_all (fs : list Fn) (args : list value) (w : World) : option World :=
  match fs with
  | [] => Some w
  | f :: rest =>
      match call_fn f args w with
      | Some w' => call_all rest args w'
      | None => None
      end
  end.

(** The transport raises [channel] with [args]: the listeners attached to
    that channel at this moment are called in order. *)
Definition native_notify (channel : string) (args : list value) (w : World)
  : option World :=
  call_all (on_channel channel (listeners (connection w))) args w.

(** ** Collaborators of [send] and [sendBatch] *)

(** Modelled from the spec: [JsonRpcMapper.toPayload], the payload builder,
    which is not among the sources.  It turns a method name and an ordered
    parameter list into a request object that carries a fresh correlation
    id; ids are distinct from one call to the next. *)
Definition toPayload (name : string) (args : list value) (w : World)
  : Request * World :=
  let w := log (CallToPayload name args) w in
  (mkRequest "2.0" (VNum (messageId w)) name args,
   set_messageId (messageId w + 1)%Z w).

(** The outcome of validation: [Invalid e] is the case in which the
    validator returns an instance of [Error]. *)
Inductive Validation : Type :=
| Valid
| Invalid (e : value).

(** The structured error that stands for a malformed response. *)
Definition malformed_response : value :=
  VObj [("message", VStr "malformed response")].

(** Modelled from the spec: [JsonRpcResponseValidator.validate], which is
    not among the sources.  A response that carries a non-null [error] is an
    error outcome whatever its [result], and the error is passed through
    unmodified; a response with neither [result] nor [error] is invalid; the
    function is total and classifies whatever it is given. *)
Definition validate (response : value) : Validation :=
  match get_prop "error" response, get_prop "result" response with
  | Some e, Some r =>
      if negb (is_nullish e) then Invalid e
      else if value_eqb r VUndefined then Invalid malformed_response
      else Valid
  | _, _ => Invalid malformed_response
  end.

(** ** Promises *)

Definition new_promise (w : World) : nat * World :=
  (length (promises w), set_promises (promises w ++ [Root Pending]) w).

(** The function that [send] passes to [then]: a [throw] rejects the derived
    promise, a [return] fulfils it. *)
Definition send_then (response : value) : PState :=
  match validate response with
  | Invalid e => Rejected e
  | Valid =>
      match get_prop "result" response with
      | Some r => Fulfilled r
      | None => Rejected type_error
      end
  end.

(** State of [p.then(f)] as a function of the state of [p], for the [f] of
    [send]: [f] runs on the value that fulfils [p], and a rejection of [p]
    passes through. *)
Definition derived (st : PState) : PState :=
  match st with
  | Pending => Pending
  | Fulfilled v => send_then v
  | Rejected e => Rejected e
  end.

(** The state of promise [q]; [None] when the store holds no such promise. *)
Definition promise_state (q : nat) (w : World) : option PState :=
  match promises w !! q with
  | Some (Root st) => Some st
  | Some (Then p) =>
      match promises w !! p with
      | Some (Root st) => Some (derived st)
      | _ => None
      end
  | None => None
  end.

(** A promise settles once: later calls of its [resolve] or [reject] change
    nothing. *)
Definition settle (p : nat) (st : PState) (w : World) : World :=
  match promises w !! p with
  | Some (Root Pending) => set_promises (<[p := Root st]> (promises w)) w
  | _ => w
  end.

Definition resolve (p : nat) (v : value) (w : World) : World :=
  settle p (Fulfilled v) (log (CallResolve p v) w).

Definition reject (p : nat) (e : value) (w : World) : World :=
  settle p (Rejected e) (log (CallReject p e) w).

(** [p.then(f)] with the [f] of [send]. *)
Definition promise_then (p : nat) (w : World) : nat * World :=
  (length (promises w), set_promises (promises w ++ [Then p]) w).

(** ** Sending *)

(** [this.connection.send(payload, callback)]: the transport takes the body
    and keeps the callback, which it calls when the write completes. *)
Definition connection_send (payload : Payload) (p : nat) (w : World) : World :=
  log (CallSend payload p)
    (set_connection
       (set_written (written (connection w) ++ [(payload, p)]) (connection w))
       w).

Definition sendPayload (payload : Payload) (w : World) : nat * World :=
  let '(p, w) := new_promise w in
  (p, connection_send payload p w).

(** The completion callback [(error, response) => ...] of the write made by
    [sendPayload payload], whose promise is [p]. *)
Definition sendPayload_callback (payload : Payload) (p : nat)
    (error response : value) (w : World) : World :=
  let w := removeAllListeners (payload_id payload) w in
  if negb (truthy error) then resolve p response w
  else reject p error w.

(** The transport completes its write number [k]. *)
Definition complete (k : nat) (error response : value) (w : World) : World :=
  match written (connection w) !! k with
  | Some (payload, p) => sendPayload_callback payload p error response w
  | None => w
  end.

Definition send (name : string) (args : list value) (w : World) : nat * World :=
  let '(req, w) := toPayload name args w in
  let '(p, w) := sendPayload (Single req) w in
  promise_then p w.

(** [method.beforeExecution(moduleInstance)] on the method object at
    reference [m]; a reference to nothing raises a TypeError ([None]). *)
Definition call_beforeExecution (m : nat) (moduleInstance : value) (w : World)
  : option World :=
  match heap w !! m with
  | Some obj =>
      Some (set_heap
              (<[m := mkMethod (beforeExecution obj moduleInstance (mdata obj))
                        (beforeExecution obj)]> (heap w))
              (log (CallBeforeExecution m moduleInstance) w))
  | None => None
  end.

(** The body of [methods.forEach], with the array [payload] built so far. *)
Fixpoint forEach_method (methods : list nat) (moduleInstance : value)
    (payload : list Request) (w : World) : option (list Request * World) :=
  match methods with
  | [] => Some (payload, w)
  | m :: rest =>
      match call_beforeExecution m moduleInstance w with
      | Some w1 =>
          match heap w1 !! m with
          | Some obj =>
              let '(req, w2) :=
                toPayload (rpcMethod (mdata obj)) (parameters (mdata obj)) w1 in
              forEach_method rest moduleInstance (payload ++ [req]) w2
          | None => None
          end
      | None => None
      end
  end.

Definition sendBatch (methods : list nat) (moduleInstance : value) (w : World)
  : option (nat * World) :=
  match forEach_method methods moduleInstance [] w with
  | Some (payload, w1) => Some (sendPayload (Batch payload) w1)
  | None => None
  end.

(** ** Vocabulary of the statements *)

(** The five registrations that one run of [registerEventListeners] makes
    when the next fresh function object is number [n]. *)
Definition registrations (n : nat) : list (string * Fn) :=
  [("accountsChanged", Bound n OnAccountsChanged);
   ("networkChanged", Bound (S n) OnReady);
   ("networkChanged", Bound (S (S n)) OnNetworkChanged);
   ("data", Bound (S (S (S n))) OnMessage);
   ("error", Bound (S (S (S (S n)))) OnError)].

Definition is_settle_call (e : Event) : bool :=
  match e with
  | CallResolve _ _ | CallReject _ _ => true
  | _ => false
  end.

Definition is_native_removal (e : Event) : bool :=
  match e with
  | CallRemoveListener _ _ => true
  | _ => false
  end.

Definition is_bound (f : Fn) : bool :=
  match f with
  | Bound _ _ => true
  | Proto _ => false
  end.

(** The call by which the completion callback settles promise [p]. *)
Definition settle_call (p : nat) (error response : value) : Event :=
  if truthy error then CallReject p error else CallResolve p response.

(** The state in which the completion callback leaves promise [p]. *)
Definition outcome (error response : value) : PState :=
  if truthy error then Rejected error else Fulfilled response.

(** The calls that [sendBatch] makes for its queue before the write: for
    each entry its hook, then the construction of its payload. *)
Definition batch_calls (methods : list nat) (moduleInstance : value)
    (payload : list Request) : list Event :=
  concat
    (zip_with
       (fun m req =>
          [CallBeforeExecution m moduleInstance;
           CallToPayload (method req) (params req)])
       methods payload).

(** The state of the method at position [i] of the queue when its payload is
    built: its hook has run once for this entry and once for every earlier
    entry that refers to the same object. *)
Definition data_at_build (methods : list nat) (moduleInstance : value)
    (h : list AbstractMethod) (i : nat) : option MethodData :=
  match methods !! i with
  | Some m =>
      match h !! m with
      | Some obj =>
          Some (Nat.iter (S (count_occ Nat.eq_dec (take i methods) m))
                  (beforeExecution obj moduleInstance) (mdata obj))
      | None => None
      end
  | None => None
  end.

(** The reading of the batch-settlement claim under test: settling a batch
    leaves in place the listeners registered under the correlation id of
    each of its requests. *)
Definition batch_settlement_keeps_id_listeners (w : World)
    (reqs : list Request) (p : nat) (error response : value) : Prop :=
  forall r, In r reqs ->
    listeners_under (id r)
      (events (sendPayload_callback (Batch reqs) p error response w))
    = listeners_under (id r) (events w).

Definition is_hook_call (e : Event) : bool :=
  match e with
  | CallBeforeExecution _ _ => true
  | _ => false
  end.

Definition is_send_call (e : Event) : bool :=
  match e with
  | CallSend _ _ => true
  | _ => false
  end.

(** ** Example states *)

Definition example_connection : Connection :=
  mkConnection [] true [].

Definition example_provider : World :=
  constructor example_connection "socket_message" "socket_error"
    "socket_networkChanged" "socket_accountsChanged".

Definition example_listening : World :=
  registerEventListeners example_provider.

Definition example_listening_twice : World :=
  registerEventListeners example_listening.

(** A method whose hook puts the module instance in front of its
    parameters, and one whose hook changes nothing. *)
Definition example_method_a : AbstractMethod :=
  mkMethod (mkMethodData "a" [VNum 1])
    (fun moduleInstance d =>
       mkMethodData (rpcMethod d) (moduleInstance :: parameters d)).

Definition example_method_b : AbstractMethod :=
  mkMethod (mkMethodData "b" []) (fun _ d => d).

Definition example_queueing : World :=
  set_heap [example_method_a; example_method_b] example_provider.

Definition example_request : Request :=
  mkRequest "2.0" (VNum 1) "a" [].

(** A caller listens under id 1 while a batch that holds request 1 is in
    flight. *)
Definition example_batch_pending : World :=
  on (VNum 1) 9 (snd (sendPayload (Batch [example_request]) example_provider)).

Definition example_ok_response : value :=
  VObj [("id", VNum 0); ("result", VStr "ok")].

Definition example_error_response : value :=
  VObj [("id", VNum 0);
        ("error", VObj [("code", VNum (-32000)); ("message", VStr "boom")])].

(** ** Further vocabulary *)

Definition is_string (v : value) : bool :=
  match v with
  | VStr _ => true
  | _ => false
  end.

(** [removeAllListeners] called for each event of a list in turn. *)
Definition removeAllListeners_each (events : list value) (w : World) : World :=
  fold_left (fun w event => removeAllListeners event w) events w.

(** The four channels on which [registerEventListeners] attaches. *)
Definition native_channels : list string :=
  ["accountsChanged"; "networkChanged"; "data"; "error"].

(** The deliveries that one run of [onAccountsChanged] makes. *)
Definition accounts_deliveries (accounts : value) (w : World) : list Event :=
  map (Notify (VStr "accountsChanged") accounts)
    (listeners_under (VStr "accountsChanged") (events w)).

(** A caller listens for account changes on a new provider. *)
Definition example_subscribed : World :=
  on (VStr "accountsChanged") 0 (on (VStr "accountsChanged") 5 example_provider).

(** The removals that [removeAllListeners] can ask of the transport: one
    per case of its [switch]. *)
Definition switch_removals : list Event :=
  [CallRemoveListener "networkChanged" (Proto OnNetworkChanged);
   CallRemoveListener "accountsChanged" (Proto OnAccountsChanged);
   CallRemoveListener "data" (Proto OnMessage);
   CallRemoveListener "error" (Proto OnError)].

(** * Properties *)

(** ** Values *)

Lemma value_ind' (P : value -> Prop) :
  P VUndefined -> P VNull ->
  (forall b, P (VBool b)) -> (forall n, P (VNum n)) -> (forall s, P (VStr s)) ->
  (forall items, Forall P items -> P (VArr items)) ->
  (forall props, Forall (fun kv => P (snd kv)) props -> P (VObj props)) ->
  forall v, P v.
Proof.
  intros Hu Hn Hb Hz Hs Ha Ho.
  fix IH 1.
  intros [| | b | n | s | items | props].
  - exact Hu.
  - exact Hn.
  - apply Hb.
  - apply Hz.
  - apply Hs.
  - apply Ha. induction items as [| x items IHitems].
    + constructor.
    + constructor; [apply IH | exact IHitems].
  - apply Ho. induction props as [| [k x] props IHprops].
    + constructor.
    + constructor; [apply IH | exact IHprops].
Qed.

Lemma value_eqb_eq (a b : value) : value_eqb a b = true <-> a = b.
Proof.
  revert b. induction a as [| | x | x | x | xs IH | ps IH] using value_ind';
    intros [| | y | y | y | ys | qs]; simpl; try (split; (discriminate || reflexivity)).
  - rewrite Bool.eqb_true_iff. split; congruence.
  - rewrite Z.eqb_eq. split; congruence.
  - rewrite String.eqb_eq. split; congruence.
  - revert ys. induction IH as [| x xs Hx _ IHxs]; intros [| y ys];
      try (split; (discriminate || reflexivity)).
    rewrite andb_true_iff, Hx, IHxs. split.
    + intros [-> H]. congruence.
    + intros H. injection H as -> ->. auto.
  - revert qs. induction IH as [| [k x] ps Hx _ IHps]; intros [| [k' y] qs];
      try (split; (discriminate || reflexivity)).
    simpl in Hx.
    rewrite !andb_true_iff, String.eqb_eq, Hx, IHps. split.
    + intros [[-> ->] H]. congruence.
    + intros H. injection H as -> -> ->. auto.
Qed.

Lemma value_eqb_refl (a : value) : value_eqb a a = true.
Proof. now apply value_eqb_eq. Qed.

(** ** The two listener tables *)

Lemma remove_first_absent channel f (l : list (string * Fn)) :
  forallb (fun e => negb (same_entry channel f e)) l = true ->
  remove_first channel f l = l.
Proof.
  induction l as [| e l IH]; simpl; [reflexivity |].
  rewrite andb_true_iff. intros [He Hl].
  apply negb_true_iff in He. rewrite He. now rewrite IH.
Qed.

(** Removing a function that is not registered on the channel changes
    nothing. *)
Lemma emitter_removeListener_absent channel f (l : list (string * Fn)) :
  forallb (fun e => negb (same_entry channel f e)) l = true ->
  emitter_removeListener channel f l = l.
Proof.
  intros H. unfold emitter_removeListener.
  rewrite remove_first_absent.
  - apply rev_involutive.
  - rewrite forallb_forall in *. intros e He. apply H. now apply in_rev.
Qed.

(** A prototype method is never the same function object as a bound one. *)
Lemma same_entry_proto_bound channel h e :
  is_bound (snd e) = true -> same_entry channel (Proto h) e = false.
Proof.
  destruct e as [c [h' | n h']]; simpl; [discriminate |].
  intros _. unfold same_entry. simpl.
  apply andb_false_r.
Qed.

(** Whatever the channel, asking the transport to remove a prototype method
    detaches no bound function. *)
Lemma emitter_removeListener_proto channel h (l : list (string * Fn)) :
  forallb (fun e => is_bound (snd e)) l = true ->
  emitter_removeListener channel (Proto h) l = l.
Proof.
  intros H. apply emitter_removeListener_absent.
  rewrite forallb_forall in *. intros e He.
  rewrite same_entry_proto_bound; [reflexivity | now apply H].
Qed.

Lemma listeners_under_removed event (table : list (value * nat)) :
  listeners_under event
    (List.filter (fun e => negb (value_eqb (fst e) event)) table) = [].
Proof.
  unfold listeners_under.
  induction table as [| e table IH]; simpl; [reflexivity |].
  destruct (value_eqb (fst e) event) eqn:E; simpl; [exact IH |].
  rewrite E. exact IH.
Qed.

(** The inherited removal leaves nothing under the event it is given. *)
Lemma super_removeAllListeners_clears event w :
  listeners_under event (events (super_removeAllListeners event w)) = [].
Proof.
  unfold super_removeAllListeners.
  destruct event; simpl; try apply listeners_under_removed. reflexivity.
Qed.

(** Listeners under any other name stay, in their order. *)
Lemma super_removeAllListeners_other event other w :
  event <> VUndefined -> value_eqb other event = false ->
  listeners_under other (events (super_removeAllListeners event w))
  = listeners_under other (events w).
Proof.
  intros Hdef Hne.
  assert (H : listeners_under other
                (List.filter (fun e => negb (value_eqb (fst e) event)) (events w))
              = listeners_under other (events w)).
  { unfold listeners_under. induction (events w) as [| e table IH]; simpl; [reflexivity |].
    destruct (value_eqb (fst e) event) eqn:E; simpl.
    - destruct (value_eqb (fst e) other) eqn:E'; [| exact IH].
      apply value_eqb_eq in E, E'. rewrite <- E, E', value_eqb_refl in Hne.
      discriminate.
    - destruct (value_eqb (fst e) other); simpl; now rewrite IH. }
  unfold super_removeAllListeners. destruct event; simpl; try exact H.
  congruence.
Qed.

(** ** Attaching the native listeners *)

Lemma registerEventListeners_listeners w :
  listeners (connection (registerEventListeners w))
  = listeners (connection w) ++ registrations (nextBound w).
Proof.
  unfold registerEventListeners, connection_on, emitter_on, bind. simpl.
  rewrite <- !app_assoc. reflexivity.
Qed.

Lemma registerEventListeners_nextBound w :
  nextBound (registerEventListeners w) = 5 + nextBound w.
Proof. reflexivity. Qed.

Lemma registerEventListeners_events w :
  events (registerEventListeners w) = events w.
Proof. reflexivity. Qed.

(** C5, as the code has it.  One run of [registerEventListeners] appends
    five registrations, each a function object made for that run, on the
    four native channels [accountsChanged], [networkChanged] (the ready
    handler and the network-change handler), [data] and [error]; it looks
    for no earlier registration, so a second run appends five more and
    every channel then has twice the listeners. *)
Theorem registerEventListeners_appends_five w :
  listeners (connection (registerEventListeners w))
  = listeners (connection w) ++ registrations (nextBound w)
  /\ listeners (connection (registerEventListeners (registerEventListeners w)))
     = listeners (connection w) ++ registrations (nextBound w)
         ++ registrations (5 + nextBound w)
  /\ (forall n,
        map fst (registrations n)
        = ["accountsChanged"; "networkChanged"; "networkChanged"; "data"; "error"]
        /\ forallb (fun e => is_bound (snd e)) (registrations n) = true)
  /\ (forall channel,
        length (on_channel channel
                  (listeners (connection (registerEventListeners (registerEventListeners w)))))
        = length (on_channel channel (listeners (connection w)))
          + 2 * length (on_channel channel (registrations 0))).
Proof.
  split; [apply registerEventListeners_listeners |].
  split.
  { rewrite !registerEventListeners_listeners, registerEventListeners_nextBound.
    now rewrite <- app_assoc. }
  split; [intros n; split; reflexivity |].
  intros channel.
  rewrite !registerEventListeners_listeners, registerEventListeners_nextBound.
  unfold on_channel.
  rewrite !List.filter_app, !map_app, !length_app.
  assert (H : forall n, length (map snd (List.filter
                (fun e : string * Fn => String.eqb (fst e) channel) (registrations n)))
              = length (map snd (List.filter
                (fun e : string * Fn => String.eqb (fst e) channel) (registrations 0)))).
  { intros n. unfold registrations. cbn [List.filter fst].
    repeat match goal with |- context [String.eqb ?a channel] =>
      destruct (String.eqb a channel) end; reflexivity. }
  rewrite (H (nextBound w)), (H (5 + nextBound w)). lia.
Qed.

(** C5, the claim as written fails: on a new provider the first run leaves
    five listeners, not four; the second run changes the listeners, adds
    function objects that were not attached before, and makes one native
    notification reach an outward listener twice. *)
Lemma registerEventListeners_double_subscribes :
  length (listeners (connection example_listening)) = 5
  /\ listeners (connection example_listening_twice)
     <> listeners (connection example_listening)
  /\ In ("accountsChanged", Bound 5 OnAccountsChanged)
       (listeners (connection example_listening_twice))
  /\ ~ In ("accountsChanged", Bound 5 OnAccountsChanged)
         (listeners (connection example_listening))
  /\ option_map trace
       (native_notify "accountsChanged" [VArr []]
          (set_trace [] (on (VStr "accountsChanged") 0 example_listening)))
     = Some [Notify (VStr "accountsChanged") (VArr []) 0]
  /\ option_map trace
       (native_notify "accountsChanged" [VArr []]
          (set_trace [] (on (VStr "accountsChanged") 0 example_listening_twice)))
     = Some [Notify (VStr "accountsChanged") (VArr []) 0;
             Notify (VStr "accountsChanged") (VArr []) 0].
Proof.
  repeat split; try reflexivity.
  - vm_compute. discriminate.
  - vm_compute. tauto.
  - vm_compute. intros H. repeat destruct H as [H | H]; try discriminate H. exact H.
Qed.

(** ** Detaching *)

Lemma removeAllListeners_frame event w :
  let w' := removeAllListeners event w in
  promises w' = promises w
  /\ written (connection w') = written (connection w)
  /\ isConnected (connection w') = isConnected (connection w)
  /\ heap w' = heap w
  /\ messageId w' = messageId w
  /\ nextBound w' = nextBound w.
Proof.
  unfold removeAllListeners. simpl.
  repeat match goal with |- context [if ?c then _ else _] => destruct c end;
    destruct event; repeat split; reflexivity.
Qed.

(** The calls made by one run of [removeAllListeners]: at most one removal
    on the transport, then the inherited removal. *)
Lemma removeAllListeners_trace event w :
  exists mid,
    trace (removeAllListeners event w)
    = trace w ++ CallRemoveAllListeners event :: mid
        ++ [CallSuperRemoveAllListeners event]
    /\ forallb is_native_removal mid = true.
Proof.
  unfold removeAllListeners. simpl.
  repeat match goal with |- context [if ?c then _ else _] => destruct c end;
    (exists [] + eexists [_]); destruct event; simpl;
    rewrite <- ?app_assoc; simpl; split; reflexivity.
Qed.

(** After [removeAllListeners event] the adapter has no listener under
    [event]. *)
Lemma removeAllListeners_clears event w :
  listeners_under event (events (removeAllListeners event w)) = [].
Proof. unfold removeAllListeners. apply super_removeAllListeners_clears. Qed.

(** No event name makes [removeAllListeners] detach a bound function from
    the transport: what it hands to [removeListener] is the prototype
    method, which is a different function object. *)
Lemma removeAllListeners_keeps_bound event w :
  forallb (fun e => is_bound (snd e)) (listeners (connection w)) = true ->
  listeners (connection (removeAllListeners event w)) = listeners (connection w).
Proof.
  intros H. unfold removeAllListeners. simpl.
  repeat match goal with |- context [if ?c then _ else _] => destruct c end;
    destruct event; simpl; try reflexivity;
    now apply emitter_removeListener_proto.
Qed.

(** Removing an event that has no listener on either table is not a fault
    and changes neither table. *)
Lemma removeAllListeners_never_added event w :
  event <> VUndefined ->
  listeners_under event (events w) = [] ->
  forallb (fun e => is_bound (snd e)) (listeners (connection w)) = true ->
  events (removeAllListeners event w) = events w
  /\ listeners (connection (removeAllListeners event w)) = listeners (connection w).
Proof.
  intros Hdef Hnone Hb. split; [| now apply removeAllListeners_keeps_bound].
  assert (H : List.filter (fun e => negb (value_eqb (fst e) event)) (events w) = events w).
  { unfold listeners_under in Hnone.
    induction (events w) as [| e table IH]; simpl in *; [reflexivity |].
    destruct (value_eqb (fst e) event); simpl in *; [discriminate |].
    now rewrite IH. }
  unfold removeAllListeners. simpl.
  repeat match goal with |- context [if ?c then _ else _] => destruct c end;
    destruct event; simpl; congruence.
Qed.

(** C6, evaluated on the code.  On a provider that has just attached its
    listeners, [removeAllListeners] leaves the transport's listener table as
    it was, whatever the event name and whatever the names the base class
    defines; with the example names, a native [networkChanged] notification
    that follows the removal still reaches the outward listener. *)
Theorem removeAllListeners_leaves_native_listeners :
  (forall b message error networkChanged accountsChanged event,
     let w :=
       registerEventListeners
         (constructor (mkConnection [] b []) message error networkChanged
            accountsChanged) in
     listeners (connection (removeAllListeners event w)) = registrations 0)
  /\ listeners
       (connection
          (removeAllListeners (VStr (SOCKET_NETWORK_CHANGED example_listening))
             example_listening))
     = registrations 0
  /\ option_map trace
       (native_notify "networkChanged" [VNum 3]
          (set_trace []
             (removeAllListeners (VStr (SOCKET_NETWORK_CHANGED example_listening))
                (on (VStr "networkChanged") 7 example_listening))))
     = Some [Notify (VStr "networkChanged") (VNum 3) 7].
Proof.
  split; [| split; reflexivity].
  intros b message error networkChanged accountsChanged event w.
  rewrite removeAllListeners_keeps_bound; reflexivity.
Qed.

(** ** Message notifications *)

(** C7.  A native message notification [(ignorable, payload)] on a provider
    that has attached its listeners runs the inherited dispatch on [payload]
    alone, whatever listeners the adapter holds; the first argument has no
    influence on the state or on the trace. *)
Theorem onMessage_forwards_payload_only :
  (forall b message error networkChanged accountsChanged table ignorable payload,
     let w :=
       set_events table
         (registerEventListeners
            (constructor (mkConnection [] b []) message error networkChanged
               accountsChanged)) in
     native_notify "data" [ignorable; payload] w = Some (super_onMessage payload w))
  /\ (forall w ignorable payload,
        onMessage ignorable payload w = super_onMessage payload w)
  /\ (forall w ignorable ignorable' payload,
        onMessage ignorable payload w = onMessage ignorable' payload w).
Proof.
  split; [| split; reflexivity].
  intros b message error networkChanged accountsChanged table ignorable payload w.
  unfold native_notify.
  assert (H : on_channel "data" (listeners (connection w)) = [Bound 3 OnMessage])
    by reflexivity.
  rewrite H. reflexivity.
Qed.

(** ** Connection state *)

(** C8.  [disconnect] returns [true] in every state and changes nothing:
    the transport keeps its listeners, its connectivity and its writes, and
    no call is made. *)
Theorem disconnect_true w :
  fst (disconnect w) = true
  /\ snd (disconnect w) = w
  /\ connection (snd (disconnect w)) = connection w
  /\ connected (snd (disconnect w)) = connected w
  /\ trace (snd (disconnect w)) = trace w.
Proof. repeat split. Qed.

(** C9.  [connected] is the answer of the transport's own connectivity
    query, and nothing else in the state takes part in it. *)
Theorem connected_is_transport_flag :
  (forall w, connected w = isConnected (connection w))
  /\ (forall c w, connected (set_connection c w) = isConnected c)
  /\ (forall l b ws w, connected (set_connection (mkConnection l b ws) w) = b).
Proof. repeat split. Qed.

(** ** The completion callback *)

Lemma sendPayload_eq payload w :
  sendPayload payload w
  = (length (promises w),
     connection_send payload (length (promises w))
       (set_promises (promises w ++ [Root Pending]) w)).
Proof. reflexivity. Qed.

(** The write that [sendPayload] makes is the next one of the transport,
    and completing it runs the callback on the promise returned. *)
Lemma complete_sendPayload payload error response w :
  complete (length (written (connection w))) error response
    (snd (sendPayload payload w))
  = sendPayload_callback payload (fst (sendPayload payload w)) error response
      (snd (sendPayload payload w)).
Proof.
  unfold complete. simpl.
  now rewrite list_lookup_middle.
Qed.

Lemma settle_pending p st w :
  promises w !! p = Some (Root Pending) ->
  promises (settle p st w) = <[p := Root st]> (promises w).
Proof. intros H. unfold settle. now rewrite H. Qed.

Lemma settle_frame p st w :
  events (settle p st w) = events w
  /\ trace (settle p st w) = trace w
  /\ connection (settle p st w) = connection w.
Proof.
  unfold settle.
  destruct (promises w !! p) as [[[| |] |] |]; repeat split.
Qed.

(** The callback ends with the call that settles, made in the state that
    the cleanup has left. *)
Lemma sendPayload_callback_eq payload p error response w :
  sendPayload_callback payload p error response w
  = settle p (outcome error response)
      (log (settle_call p error response)
         (removeAllListeners (payload_id payload) w)).
Proof.
  unfold sendPayload_callback, outcome, settle_call, resolve, reject.
  now destruct (truthy error).
Qed.

Lemma sendPayload_callback_promises payload p error response w :
  promises w !! p = Some (Root Pending) ->
  promises (sendPayload_callback payload p error response w)
  = <[p := Root (outcome error response)]> (promises w).
Proof.
  intros H. rewrite sendPayload_callback_eq.
  destruct (removeAllListeners_frame (payload_id payload) w) as [Hp _].
  rewrite settle_pending; simpl; now rewrite Hp.
Qed.

(** A pending promise is settled by the callback with the error when the
    error is truthy, with the response otherwise. *)
Lemma sendPayload_callback_settles payload p error response w :
  promises w !! p = Some (Root Pending) ->
  promise_state p (sendPayload_callback payload p error response w)
  = Some (outcome error response).
Proof.
  intros H. unfold promise_state.
  rewrite sendPayload_callback_promises by exact H.
  rewrite list_lookup_insert_eq; [reflexivity |].
  apply lookup_lt_is_Some. eauto.
Qed.

Lemma sendPayload_callback_trace payload p error response w :
  exists mid,
    trace (sendPayload_callback payload p error response w)
    = trace w ++ CallRemoveAllListeners (payload_id payload) :: mid
        ++ [settle_call p error response]
    /\ forallb (fun e => negb (is_settle_call e)) mid = true.
Proof.
  rewrite sendPayload_callback_eq.
  destruct (settle_frame p (outcome error response)
              (log (settle_call p error response)
                 (removeAllListeners (payload_id payload) w))) as (_ & -> & _).
  destruct (removeAllListeners_trace (payload_id payload) w) as (mid & Ht & Hmid).
  exists (mid ++ [CallSuperRemoveAllListeners (payload_id payload)]).
  simpl. rewrite Ht. split.
  - rewrite <- !app_assoc. simpl. now rewrite <- app_assoc.
  - rewrite forallb_app. simpl. rewrite andb_true_r.
    rewrite forallb_forall in *. intros e He. specialize (Hmid e He).
    now destruct e.
Qed.

Lemma sendPayload_callback_events payload p error response w :
  events (sendPayload_callback payload p error response w)
  = events (removeAllListeners (payload_id payload) w).
Proof.
  rewrite sendPayload_callback_eq.
  now destruct (settle_frame p (outcome error response)
                  (log (settle_call p error response)
                     (removeAllListeners (payload_id payload) w))) as (-> & _).
Qed.

(** C1.  Whenever the transport calls the completion callback of a write
    made by [sendPayload], with an error or with a response and in whatever
    state, the callback first runs [removeAllListeners(payload.id)] and only
    then calls [resolve] or [reject]: the settling call is the last call of
    the callback, no settling call precedes it, the cleanup leaves the
    promise store untouched, and the adapter holds no listener under
    [payload.id] at the moment of the settling call nor after it. *)
Theorem sendPayload_cleanup_before_settlement payload error response :
  (forall w0,
     written (connection (snd (sendPayload payload w0)))
     = written (connection w0) ++ [(payload, fst (sendPayload payload w0))]
     /\ complete (length (written (connection w0))) error response
          (snd (sendPayload payload w0))
        = sendPayload_callback payload (fst (sendPayload payload w0)) error
            response (snd (sendPayload payload w0)))
  /\ (forall p w,
        let cleaned := removeAllListeners (payload_id payload) w in
        let settled := sendPayload_callback payload p error response w in
        settled
        = settle p (outcome error response)
            (log (settle_call p error response) cleaned)
        /\ promises cleaned = promises w
        /\ listeners_under (payload_id payload) (events cleaned) = []
        /\ listeners_under (payload_id payload) (events settled) = []
        /\ exists mid,
             trace settled
             = trace w ++ CallRemoveAllListeners (payload_id payload) :: mid
                 ++ [settle_call p error response]
             /\ forallb (fun e => negb (is_settle_call e)) mid = true).
Proof.
  split.
  - intros w0. split; [reflexivity | apply complete_sendPayload].
  - intros p w cleaned settled. subst cleaned settled.
    split; [apply sendPayload_callback_eq |].
    split; [apply removeAllListeners_frame |].
    split; [apply removeAllListeners_clears |].
    split; [| apply sendPayload_callback_trace].
    rewrite sendPayload_callback_events. apply removeAllListeners_clears.
Qed.

(** C3, as the code has it.  The callback tests the error for truthiness
    ([if (!error)]).  For the promise that [sendPayload] returns: when the
    transport completes the write with a truthy error (every error object
    is one), the promise is rejected with that same value; when the error
    is falsy ([null], [undefined], [false], [0] or the empty string) the
    promise is fulfilled with the response as delivered.  In both cases the
    cleanup comes first: the settling call is the last call, no settling
    call precedes it, and no listener is left under [payload.id]. *)
Theorem sendPayload_settles_by_truthiness payload error response w0 :
  let p := fst (sendPayload payload w0) in
  let w := snd (sendPayload payload w0) in
  let k := length (written (connection w0)) in
  promise_state p w = Some Pending
  /\ promise_state p (complete k error response w)
     = Some (if truthy error then Rejected error else Fulfilled response)
  /\ listeners_under (payload_id payload)
       (events (complete k error response w)) = []
  /\ (exists mid,
        trace (complete k error response w)
        = trace w ++ CallRemoveAllListeners (payload_id payload) :: mid
            ++ [if truthy error then CallReject p error
                else CallResolve p response]
        /\ forallb (fun e => negb (is_settle_call e)) mid = true)
  /\ (forall props, truthy (VObj props) = true)
  /\ (forall items, truthy (VArr items) = true)
  /\ truthy VNull = false
  /\ truthy VUndefined = false
  /\ truthy (VBool false) = false
  /\ truthy (VNum 0) = false
  /\ truthy (VStr "") = false.
Proof.
  intros p w k. subst p w k.
  assert (Hp : promises (snd (sendPayload payload w0))
                 !! fst (sendPayload payload w0) = Some (Root Pending)).
  { simpl. now rewrite list_lookup_middle. }
  split; [unfold promise_state; now rewrite Hp |].
  rewrite complete_sendPayload.
  split; [now apply sendPayload_callback_settles |].
  split.
  { rewrite sendPayload_callback_events. apply removeAllListeners_clears. }
  split; [apply (sendPayload_callback_trace payload _ error response) |].
  repeat split.
Qed.

(** C3, the claim as written fails: an error that is not [null] but is
    falsy, such as [0], the empty string or [false], does not reject the
    promise; the promise is fulfilled with the response. *)
Lemma sendPayload_falsy_error_resolves :
  VNum 0 <> VNull
  /\ promise_state (fst (sendPayload (Single example_request) example_provider))
       (complete 0 (VNum 0) example_ok_response
          (snd (sendPayload (Single example_request) example_provider)))
     = Some (Fulfilled example_ok_response)
  /\ promise_state (fst (sendPayload (Single example_request) example_provider))
       (complete 0 (VNum 0) example_ok_response
          (snd (sendPayload (Single example_request) example_provider)))
     <> Some (Rejected (VNum 0))
  /\ promise_state (fst (sendPayload (Single example_request) example_provider))
       (complete 0 (VStr "") example_ok_response
          (snd (sendPayload (Single example_request) example_provider)))
     = Some (Fulfilled example_ok_response)
  /\ promise_state (fst (sendPayload (Single example_request) example_provider))
       (complete 0 (VBool false) example_ok_response
          (snd (sendPayload (Single example_request) example_provider)))
     = Some (Fulfilled example_ok_response).
Proof.
  split; [discriminate |].
  split; [reflexivity |].
  split; [vm_compute; discriminate |].
  split; reflexivity.
Qed.

(** ** Settling a batch *)

(** C10, as the code has it.  For an array the cleanup is called with
    [undefined]: no case of the [switch] matches, no removal is asked of the
    transport and its listeners all stay attached; the inherited removal,
    given no event name, empties the adapter's own listener table, so the
    listeners under every correlation id go with the rest. *)
Theorem batch_settlement_clears_adapter_listeners reqs p error response w :
  let settled := sendPayload_callback (Batch reqs) p error response w in
  payload_id (Batch reqs) = VUndefined
  /\ listeners (connection settled) = listeners (connection w)
  /\ trace settled
     = trace w ++ [CallRemoveAllListeners VUndefined;
                   CallSuperRemoveAllListeners VUndefined;
                   settle_call p error response]
  /\ events settled = []
  /\ (forall r, listeners_under (id r) (events settled) = []).
Proof.
  intros settled. subst settled.
  rewrite sendPayload_callback_eq.
  destruct (settle_frame p (outcome error response)
              (log (settle_call p error response)
                 (removeAllListeners (payload_id (Batch reqs)) w)))
    as (He & Ht & Hc).
  rewrite He, Ht, Hc. simpl.
  repeat split.
  now rewrite <- !app_assoc.
Qed.

(** C10, the claim as written fails: a caller listens under id 1 while a
    batch that holds request 1 is in flight; once the transport completes
    the batch, that listener is gone. *)
Lemma batch_settlement_removes_id_listeners :
  listeners_under (VNum 1) (events example_batch_pending) = [9]
  /\ listeners_under (VNum 1)
       (events (complete 0 VNull (VArr []) example_batch_pending)) = []
  /\ ~ batch_settlement_keeps_id_listeners example_batch_pending
         [example_request] 0 VNull (VArr []).
Proof.
  split; [reflexivity |]. split; [reflexivity |].
  intros H. specialize (H example_request (or_introl eq_refl)).
  vm_compute in H. discriminate H.
Qed.

(** ** [send] *)

Lemma complete_sendPayload_settles payload error response w0 :
  promise_state (fst (sendPayload payload w0))
    (complete (length (written (connection w0))) error response
       (snd (sendPayload payload w0)))
  = Some (outcome error response).
Proof.
  rewrite complete_sendPayload.
  apply sendPayload_callback_settles.
  simpl. now rewrite list_lookup_middle.
Qed.

(** What [validate] accepts can be read: the read of [result] in [send]
    never raises. *)
Lemma validate_valid_readable response :
  validate response = Valid ->
  exists props,
    response = VObj props
    /\ get_prop "result" response = Some (field "result" response)
    /\ field "result" response <> VUndefined.
Proof.
  unfold validate, get_prop.
  destruct response as [| | b | n | s | items | props]; simpl; try discriminate.
  destruct (is_nullish (lookup_prop "error" props)); simpl; [| discriminate].
  destruct (value_eqb (lookup_prop "result" props) VUndefined) eqn:E;
    [discriminate |].
  intros _. exists props. repeat split.
  intros H. rewrite H in E. discriminate.
Qed.

Lemma send_then_eq response :
  send_then response
  = match validate response with
    | Invalid e => Rejected e
    | Valid => Fulfilled (field "result" response)
    end.
Proof.
  unfold send_then. destruct (validate response) eqn:E; [| reflexivity].
  destruct (validate_valid_readable response E) as (props & _ & -> & _).
  reflexivity.
Qed.

(** A property that is present is a proper part of its object. *)
Lemma lookup_prop_smaller name props :
  lookup_prop name props = VUndefined
  \/ value_size (lookup_prop name props) < value_size (VObj props).
Proof.
  induction props as [| [k v] props IH]; [now left |].
  simpl. destruct (String.eqb k name).
  - right. lia.
  - destruct IH as [IH | IH]; [now left |]. right. simpl in IH. lia.
Qed.

Lemma valid_result_not_envelope response :
  validate response = Valid -> field "result" response <> response.
Proof.
  intros H. destruct (validate_valid_readable response H) as (props & -> & _ & Hdef).
  simpl in *. destruct (lookup_prop_smaller "result" props) as [Hu | Hlt];
    [contradiction |].
  intros Heq. rewrite Heq in Hlt. lia.
Qed.

Lemma then_state_after_callback payload p q error response w :
  promises w !! p = Some (Root Pending) ->
  promises w !! q = Some (Then p) ->
  promise_state q (sendPayload_callback payload p error response w)
  = Some (derived (outcome error response)).
Proof.
  intros Hp Hq. unfold promise_state.
  rewrite sendPayload_callback_promises by exact Hp.
  assert (Hne : p <> q) by (intros ->; congruence).
  rewrite list_lookup_insert_ne by exact Hne. rewrite Hq.
  rewrite list_lookup_insert_eq; [reflexivity |].
  apply lookup_lt_is_Some. eauto.
Qed.

Lemma complete_send name args error response w0 :
  promise_state (fst (send name args w0))
    (complete (length (written (connection w0))) error response
       (snd (send name args w0)))
  = Some (derived (outcome error response)).
Proof.
  unfold complete, send. simpl.
  rewrite list_lookup_middle by reflexivity.
  apply then_state_after_callback; simpl.
  - rewrite lookup_app_l by (rewrite length_app; simpl; lia).
    now rewrite list_lookup_middle.
  - now rewrite list_lookup_middle.
Qed.

(** C2.  For the promise that [send] returns, once the transport delivers
    a response: if the validator classifies the response as an error the
    promise is rejected with that error, unchanged; otherwise it is
    fulfilled with the [result] field of the response, which is a proper
    part of the response and never the response itself.  A transport error
    passes through to the promise as it is. *)
Theorem send_rejects_error_resolves_result name args response w0 :
  let q := fst (send name args w0) in
  let w := snd (send name args w0) in
  let k := length (written (connection w0)) in
  promise_state q w = Some Pending
  /\ promise_state q (complete k VNull response w)
     = Some (match validate response with
             | Invalid e => Rejected e
             | Valid => Fulfilled (field "result" response)
             end)
  /\ promise_state q (complete k VUndefined response w)
     = promise_state q (complete k VNull response w)
  /\ match validate response with
     | Invalid _ => True
     | Valid =>
         get_prop "result" response = Some (field "result" response)
         /\ field "result" response <> response
     end
  /\ (forall props,
        promise_state q (complete k (VObj props) response w)
        = Some (Rejected (VObj props))).
Proof.
  intros q w k. subst q w k.
  split.
  { unfold promise_state, send. simpl.
    rewrite list_lookup_middle by reflexivity.
    rewrite lookup_app_l by (rewrite length_app; simpl; lia).
    now rewrite list_lookup_middle. }
  split; [rewrite complete_send; simpl; now rewrite send_then_eq |].
  split; [now rewrite !complete_send |].
  split; [| intros props; now rewrite complete_send].
  destruct (validate response) eqn:E; [| exact I].
  split; [| now apply valid_result_not_envelope].
  now destruct (validate_valid_readable response E) as (props & _ & -> & _).
Qed.

(** ** [sendBatch] *)

Lemma batch_calls_cons m methods moduleInstance req payload :
  batch_calls (m :: methods) moduleInstance (req :: payload)
  = CallBeforeExecution m moduleInstance
      :: CallToPayload (method req) (params req)
      :: batch_calls methods moduleInstance payload.
Proof. reflexivity. Qed.

(** One hook call per queued entry, in queue order. *)
Lemma batch_calls_hooks moduleInstance methods :
  forall payload, length payload = length methods ->
    List.filter is_hook_call (batch_calls methods moduleInstance payload)
    = map (fun m => CallBeforeExecution m moduleInstance) methods.
Proof.
  induction methods as [| m methods IH]; intros [| req payload] Hlen;
    try discriminate Hlen; [reflexivity |].
  rewrite batch_calls_cons. simpl. f_equal. apply IH.
  simpl in Hlen. lia.
Qed.

Lemma batch_calls_no_send moduleInstance methods :
  forall payload,
    List.filter is_send_call (batch_calls methods moduleInstance payload) = [].
Proof.
  induction methods as [| m methods IH]; intros [| req payload];
    try reflexivity.
  rewrite batch_calls_cons. simpl. apply IH.
Qed.

Lemma data_at_build_head m methods moduleInstance h obj :
  h !! m = Some obj ->
  data_at_build (m :: methods) moduleInstance h 0
  = Some (beforeExecution obj moduleInstance (mdata obj)).
Proof. intros H. unfold data_at_build. simpl. now rewrite H. Qed.

(** Running the hook of the head entry first accounts for one more run on
    the later entries that refer to the same object. *)
Lemma data_at_build_tail m methods moduleInstance h obj i :
  h !! m = Some obj ->
  data_at_build methods moduleInstance
    (<[m := mkMethod (beforeExecution obj moduleInstance (mdata obj))
              (beforeExecution obj)]> h) i
  = data_at_build (m :: methods) moduleInstance h (S i).
Proof.
  intros Hm. unfold data_at_build. simpl.
  destruct (methods !! i) as [m' |]; [| reflexivity].
  destruct (Nat.eq_dec m m') as [-> | Hne].
  - rewrite list_lookup_insert_eq by (apply lookup_lt_is_Some; eauto).
    rewrite Hm. simpl.
    destruct (Nat.eq_dec m' m') as [_ | Hc]; [| contradiction].
    f_equal. f_equal. symmetry.
    apply (Nat.iter_succ_r _ (beforeExecution obj moduleInstance)).
  - rewrite list_lookup_insert_ne by exact Hne.
    destruct (Nat.eq_dec m m') as [Hc | _]; [contradiction | reflexivity].
Qed.

(** The loop of [sendBatch]: it ends, it pushes one payload per entry, and
    for each entry in turn it calls the hook and then builds the payload
    from the state the hook has left. *)
Lemma forEach_method_spec moduleInstance methods :
  forall acc w,
    Forall (fun m => m < length (heap w)) methods ->
    exists payload w',
      forEach_method methods moduleInstance acc w = Some (acc ++ payload, w')
      /\ length payload = length methods
      /\ trace w' = trace w ++ batch_calls methods moduleInstance payload
      /\ connection w' = connection w
      /\ promises w' = promises w
      /\ events w' = events w
      /\ (forall i req, payload !! i = Some req ->
            exists d,
              data_at_build methods moduleInstance (heap w) i = Some d
              /\ method req = rpcMethod d
              /\ params req = parameters d
              /\ id req = VNum (messageId w + Z.of_nat i)).
Proof.
  induction methods as [| m methods IH]; intros acc w Hvalid.
  - exists [], w. simpl. rewrite !app_nil_r. repeat split.
    intros i req H. destruct i; discriminate H.
  - apply Forall_cons in Hvalid as [Hm Hrest].
    destruct (proj2 (lookup_lt_is_Some (heap w) m) Hm) as [obj Hobj].
    set (obj' := mkMethod (beforeExecution obj moduleInstance (mdata obj))
                   (beforeExecution obj)).
    set (w1 := set_heap (<[m := obj']> (heap w))
                 (log (CallBeforeExecution m moduleInstance) w)).
    set (req := mkRequest "2.0" (VNum (messageId w))
                  (rpcMethod (mdata obj')) (parameters (mdata obj'))).
    set (w2 := set_messageId (messageId w + 1)%Z
                 (log (CallToPayload (method req) (params req)) w1)).
    destruct (IH (acc ++ [req]) w2) as (payload & w' & Hrun & Hlen & Ht & Hc & Hp & He & Hd).
    { simpl. eapply Forall_impl; [exact Hrest |].
      intros x Hx. simpl in Hx. now rewrite length_insert. }
    exists (req :: payload), w'.
    split.
    { simpl. unfold call_beforeExecution. rewrite Hobj. simpl.
      rewrite list_lookup_insert_eq by exact Hm.
      fold obj'. unfold toPayload. simpl.
      replace (acc ++ req :: payload) with ((acc ++ [req]) ++ payload)
        by now rewrite <- app_assoc.
      exact Hrun. }
    split; [simpl; now rewrite Hlen |].
    split.
    { rewrite Ht, batch_calls_cons. simpl. rewrite <- !app_assoc. reflexivity. }
    split; [now rewrite Hc |].
    split; [now rewrite Hp |].
    split; [now rewrite He |].
    intros [| i] r Hr.
    + injection Hr as <-.
      exists (beforeExecution obj moduleInstance (mdata obj)).
      split; [exact (data_at_build_head m methods moduleInstance (heap w) obj Hobj) |].
      simpl. repeat split. f_equal. lia.
    + destruct (Hd i r Hr) as (d & Hdata & Hmeth & Hpar & Hid).
      exists d. split.
      { rewrite <- (data_at_build_tail m methods moduleInstance (heap w) obj i Hobj).
        exact Hdata. }
      repeat split; try assumption.
      rewrite Hid. simpl. f_equal. lia.
Qed.

(** C4.  For a queue of methods (references to method objects that exist),
    [sendBatch] returns a promise after these calls and no others: for each
    entry in queue order its hook, then the construction of its payload
    from the state the hook has left, and at the end one write whose body
    is the array of those payloads in queue order.  The hook calls are one
    per entry; the write is the only one.  The promise is fulfilled with
    the aggregate reply as delivered, whatever the reply holds. *)
Theorem sendBatch_hooks_then_one_write methods moduleInstance w0 :
  Forall (fun m => m < length (heap w0)) methods ->
  exists payload p w,
    sendBatch methods moduleInstance w0 = Some (p, w)
    /\ length payload = length methods
    /\ trace w
       = trace w0 ++ batch_calls methods moduleInstance payload
           ++ [CallSend (Batch payload) p]
    /\ List.filter is_hook_call
         (batch_calls methods moduleInstance payload
            ++ [CallSend (Batch payload) p])
       = map (fun m => CallBeforeExecution m moduleInstance) methods
    /\ List.filter is_send_call
         (batch_calls methods moduleInstance payload
            ++ [CallSend (Batch payload) p])
       = [CallSend (Batch payload) p]
    /\ written (connection w)
       = written (connection w0) ++ [(Batch payload, p)]
    /\ (forall i req, payload !! i = Some req ->
          exists d,
            data_at_build methods moduleInstance (heap w0) i = Some d
            /\ method req = rpcMethod d
            /\ params req = parameters d)
    /\ promise_state p w = Some Pending
    /\ (forall reply,
          promise_state p
            (complete (length (written (connection w0))) VNull reply w)
          = Some (Fulfilled reply)).
Proof.
  intros Hvalid.
  destruct (forEach_method_spec moduleInstance methods [] w0 Hvalid)
    as (payload & w1 & Hrun & Hlen & Ht & Hc & Hp & He & Hd).
  exists payload, (fst (sendPayload (Batch payload) w1)),
    (snd (sendPayload (Batch payload) w1)).
  split; [unfold sendBatch; now rewrite Hrun |].
  split; [exact Hlen |].
  split; [simpl; rewrite Ht; now rewrite <- app_assoc |].
  split.
  { rewrite List.filter_app, batch_calls_hooks by exact Hlen.
    simpl. apply app_nil_r. }
  split; [now rewrite List.filter_app, batch_calls_no_send |].
  split; [simpl; now rewrite Hc |].
  split.
  { intros i req Hreq. destruct (Hd i req Hreq) as (d & H1 & H2 & H3 & _).
    eauto. }
  split.
  { unfold promise_state. simpl. now rewrite list_lookup_middle. }
  intros reply. rewrite <- Hc.
  apply (complete_sendPayload_settles (Batch payload) VNull reply w1).
Qed.

(** The batch theorem at a queue that holds the same method object twice:
    [a], [b], [a] again. *)
Lemma sendBatch_hooks_then_one_write_example :
  Forall (fun m => m < length (heap example_queueing)) [0; 1; 0]
  /\ exists payload p w,
       sendBatch [0; 1; 0] (VStr "module") example_queueing = Some (p, w)
       /\ length payload = length [0; 1; 0]
       /\ trace w
          = trace example_queueing
              ++ batch_calls [0; 1; 0] (VStr "module") payload
              ++ [CallSend (Batch payload) p]
       /\ List.filter is_hook_call
            (batch_calls [0; 1; 0] (VStr "module") payload
               ++ [CallSend (Batch payload) p])
          = map (fun m => CallBeforeExecution m (VStr "module")) [0; 1; 0]
       /\ List.filter is_send_call
            (batch_calls [0; 1; 0] (VStr "module") payload
               ++ [CallSend (Batch payload) p])
          = [CallSend (Batch payload) p]
       /\ written (connection w)
          = written (connection example_queueing) ++ [(Batch payload, p)]
       /\ (forall i req, payload !! i = Some req ->
             exists d,
               data_at_build [0; 1; 0] (VStr "module")
                 (heap example_queueing) i = Some d
               /\ method req = rpcMethod d
               /\ params req = parameters d)
       /\ promise_state p w = Some Pending
       /\ (forall reply,
             promise_state p
               (complete (length (written (connection example_queueing)))
                  VNull reply w)
             = Some (Fulfilled reply)).
Proof.
  assert (H : Forall (fun m => m < length (heap example_queueing)) [0; 1; 0]).
  { repeat constructor. }
  split; [exact H |].
  exact (sendBatch_hooks_then_one_write [0; 1; 0] (VStr "module")
           example_queueing H).
Defined.

(** The same queue, evaluated: the second payload for [a] carries what two
    runs of its hook have left. *)
Example sendBatch_example_trace :
  option_map (fun r => trace (snd r))
    (sendBatch [0; 1; 0] (VStr "module") example_queueing)
  = Some
      [CallBeforeExecution 0 (VStr "module");
       CallToPayload "a" [VStr "module"; VNum 1];
       CallBeforeExecution 1 (VStr "module");
       CallToPayload "b" [];
       CallBeforeExecution 0 (VStr "module");
       CallToPayload "a" [VStr "module"; VStr "module"; VNum 1];
       CallSend
         (Batch
            [mkRequest "2.0" (VNum 0) "a" [VStr "module"; VNum 1];
             mkRequest "2.0" (VNum 1) "b" [];
             mkRequest "2.0" (VNum 2) "a"
               [VStr "module"; VStr "module"; VNum 1]]) 0].
Proof. reflexivity. Qed.

(** ** Worked examples *)

(** The validator on the three shapes of response. *)
Example validate_examples :
  validate (VObj [("id", VNum 1); ("result", VStr "0x1")]) = Valid
  /\ validate example_error_response
     = Invalid (VObj [("code", VNum (-32000)); ("message", VStr "boom")])
  /\ validate (VObj [("id", VNum 1)]) = Invalid malformed_response
  /\ validate VUndefined = Invalid malformed_response.
Proof. repeat split. Qed.

(** A call answered with a result, then the same call answered with an
    error: the promise of [send] holds the result alone, or the error. *)
Example send_examples :
  promise_state (fst (send "eth_call" [] example_provider))
    (complete 0 VNull example_ok_response
       (snd (send "eth_call" [] example_provider)))
  = Some (Fulfilled (VStr "ok"))
  /\ promise_state (fst (send "eth_call" [] example_provider))
       (complete 0 VNull example_error_response
          (snd (send "eth_call" [] example_provider)))
     = Some (Rejected (VObj [("code", VNum (-32000)); ("message", VStr "boom")])).
Proof. split; reflexivity. Qed.

(** A native message [(ignorable, {id: 7, result: "ok"})] reaches the
    listener under id 7 with the response, and nothing carries the first
    argument. *)
Example message_example :
  option_map trace
    (native_notify "data"
       [VStr "ignorable"; VObj [("id", VNum 7); ("result", VStr "ok")]]
       (set_trace [] (on (VNum 7) 4 example_listening)))
  = Some [Notify (VNum 7) (VObj [("id", VNum 7); ("result", VStr "ok")]) 4].
Proof. reflexivity. Qed.

(** * Further properties of the code *)

(** ** Record bookkeeping *)

Lemma set_listeners_same c : set_listeners (listeners c) c = c.
Proof. now destruct c. Qed.

Lemma set_connection_same w : set_connection (connection w) w = w.
Proof. now destruct w. Qed.

Lemma set_trace_same w : set_trace (trace w) w = w.
Proof. now destruct w. Qed.

(** A removal that removes nothing leaves only its call in the trace. *)
Lemma connection_removeListener_nothing channel f w :
  emitter_removeListener channel f (listeners (connection w))
  = listeners (connection w) ->
  connection_removeListener channel f w
  = set_trace (trace w ++ [CallRemoveListener channel f]) w.
Proof.
  intros H. unfold connection_removeListener. rewrite H.
  now rewrite set_listeners_same, set_connection_same.
Qed.

(** ** Removal never detaches what was attached *)

Lemma all_bound_registrations n :
  forallb (fun e => is_bound (snd e)) (registrations n) = true.
Proof. reflexivity. Qed.

Lemma removeAllListeners_each_keeps_bound events :
  forall w,
    forallb (fun e => is_bound (snd e)) (listeners (connection w)) = true ->
    listeners (connection (removeAllListeners_each events w))
    = listeners (connection w).
Proof.
  induction events as [| event events IH]; intros w Hb; [reflexivity |].
  unfold removeAllListeners_each in *. simpl.
  rewrite IH; rewrite removeAllListeners_keeps_bound by exact Hb;
    [reflexivity | exact Hb].
Qed.

(** X1.  When the transport holds bound functions only, no sequence of
    [removeAllListeners] calls, whatever the event names, detaches any of
    the five listeners that a run of [registerEventListeners] has attached:
    the transport's table after the removals is the table before the run
    followed by the five registrations. *)
Theorem removeAllListeners_each_leaves_registrations events w :
  forallb (fun e => is_bound (snd e)) (listeners (connection w)) = true ->
  listeners
    (connection (removeAllListeners_each events (registerEventListeners w)))
  = listeners (connection w) ++ registrations (nextBound w).
Proof.
  intros Hb.
  rewrite removeAllListeners_each_keeps_bound.
  - apply registerEventListeners_listeners.
  - rewrite registerEventListeners_listeners, forallb_app, Hb.
    apply all_bound_registrations.
Qed.

Lemma removeAllListeners_each_leaves_registrations_example :
  forallb (fun e => is_bound (snd e)) (listeners (connection example_provider))
  = true
  /\ listeners
       (connection
          (removeAllListeners_each
             [VStr "socket_networkChanged"; VStr "socket_message"; VNum 1;
              VUndefined; VStr "socket_error"; VStr "socket_accountsChanged"]
             (registerEventListeners example_provider)))
     = listeners (connection example_provider)
         ++ registrations (nextBound example_provider).
Proof.
  split; [reflexivity |].
  apply (removeAllListeners_each_leaves_registrations
           [VStr "socket_networkChanged"; VStr "socket_message"; VNum 1;
            VUndefined; VStr "socket_error"; VStr "socket_accountsChanged"]
           example_provider).
  reflexivity.
Defined.

(** X2.  [removeAllListeners] given anything but a string (a numeric
    correlation id, [undefined], [null], a boolean, an object) matches no
    case of its [switch]: it asks nothing of the transport, which stays as
    it is whatever it holds, and only the inherited removal runs. *)
Theorem removeAllListeners_non_string event w :
  is_string event = false ->
  connection (removeAllListeners event w) = connection w
  /\ trace (removeAllListeners event w)
     = trace w ++ [CallRemoveAllListeners event;
                   CallSuperRemoveAllListeners event].
Proof.
  intros H. unfold removeAllListeners.
  destruct event; try discriminate H; simpl;
    rewrite <- app_assoc; split; reflexivity.
Qed.

Lemma removeAllListeners_non_string_example :
  is_string (VNum 7) = false
  /\ connection (removeAllListeners (VNum 7) example_listening)
     = connection example_listening
  /\ trace (removeAllListeners (VNum 7) example_listening)
     = trace example_listening
         ++ [CallRemoveAllListeners (VNum 7);
             CallSuperRemoveAllListeners (VNum 7)].
Proof.
  split; [reflexivity |].
  apply (removeAllListeners_non_string (VNum 7) example_listening).
  reflexivity.
Defined.

(** ** [removeAllSocketListeners] *)

(** X3.  When the transport holds bound functions only, the two removals
    that [removeAllSocketListeners] makes before its inherited part remove
    nothing: the inherited part starts from the state the method was
    called in, with two removal calls added to the trace, one per constant,
    each naming the prototype method. *)
Theorem removeAllSocketListeners_detaches_nothing super w :
  forallb (fun e => is_bound (snd e)) (listeners (connection w)) = true ->
  removeAllSocketListeners super w
  = super
      (set_trace
         (trace w
            ++ [CallRemoveListener (SOCKET_NETWORK_CHANGED w)
                  (Proto OnNetworkChanged);
                CallRemoveListener (SOCKET_ACCOUNTS_CHANGED w)
                  (Proto OnAccountsChanged)]) w).
Proof.
  intros Hb. unfold removeAllSocketListeners.
  rewrite (connection_removeListener_nothing (SOCKET_NETWORK_CHANGED w))
    by now apply emitter_removeListener_proto.
  rewrite connection_removeListener_nothing
    by (simpl; now apply emitter_removeListener_proto).
  f_equal. destruct w. simpl. now rewrite <- app_assoc.
Qed.

Lemma removeAllSocketListeners_detaches_nothing_example :
  forallb (fun e => is_bound (snd e)) (listeners (connection example_listening))
  = true
  /\ removeAllSocketListeners (fun w => w) example_listening
     = set_trace
         (trace example_listening
            ++ [CallRemoveListener (SOCKET_NETWORK_CHANGED example_listening)
                  (Proto OnNetworkChanged);
                CallRemoveListener (SOCKET_ACCOUNTS_CHANGED example_listening)
                  (Proto OnAccountsChanged)]) example_listening.
Proof.
  split; [reflexivity |].
  apply (removeAllSocketListeners_detaches_nothing (fun w => w)
           example_listening).
  reflexivity.
Defined.

(** A removal on one channel leaves the listeners of every other channel,
    in their order. *)
Lemma remove_first_other_channel channel f other (l : list (string * Fn)) :
  other <> channel ->
  List.filter (fun e => String.eqb (fst e) other) (remove_first channel f l)
  = List.filter (fun e => String.eqb (fst e) other) l.
Proof.
  intros Hne. induction l as [| e l IH]; [reflexivity |].
  simpl. destruct (same_entry channel f e) eqn:E.
  - unfold same_entry in E. apply andb_true_iff in E as [E _].
    apply String.eqb_eq in E.
    destruct (String.eqb_spec (fst e) other) as [Heq | _]; [| reflexivity].
    congruence.
  - simpl. now rewrite IH.
Qed.

Lemma emitter_removeListener_other_channel channel f other l :
  other <> channel ->
  on_channel other (emitter_removeListener channel f l) = on_channel other l.
Proof.
  intros Hne. unfold on_channel, emitter_removeListener.
  rewrite List.filter_rev, remove_first_other_channel by exact Hne.
  now rewrite <- List.filter_rev, rev_involutive.
Qed.

(** X4.  The removals of [removeAllSocketListeners] are made on the
    channels named by [SOCKET_NETWORK_CHANGED] and
    [SOCKET_ACCOUNTS_CHANGED]: on every channel with another name the
    transport's listeners are, when the inherited part starts, what they
    were, whatever functions the transport holds. *)
Theorem removeAllSocketListeners_other_channels super w channel :
  channel <> SOCKET_NETWORK_CHANGED w ->
  channel <> SOCKET_ACCOUNTS_CHANGED w ->
  exists w',
    removeAllSocketListeners super w = super w'
    /\ on_channel channel (listeners (connection w'))
       = on_channel channel (listeners (connection w))
    /\ events w' = events w
    /\ promises w' = promises w.
Proof.
  intros Hn Ha. unfold removeAllSocketListeners.
  eexists. split; [reflexivity |]. simpl.
  rewrite !emitter_removeListener_other_channel by assumption.
  repeat split.
Qed.

Lemma removeAllSocketListeners_other_channels_example :
  "networkChanged" <> SOCKET_NETWORK_CHANGED example_listening
  /\ "networkChanged" <> SOCKET_ACCOUNTS_CHANGED example_listening
  /\ exists w',
       removeAllSocketListeners (fun w => w) example_listening = w'
       /\ on_channel "networkChanged" (listeners (connection w'))
          = on_channel "networkChanged" (listeners (connection example_listening))
       /\ events w' = events example_listening
       /\ promises w' = promises example_listening.
Proof.
  assert (Hn : "networkChanged" <> SOCKET_NETWORK_CHANGED example_listening)
    by discriminate.
  assert (Ha : "networkChanged" <> SOCKET_ACCOUNTS_CHANGED example_listening)
    by discriminate.
  split; [exact Hn |]. split; [exact Ha |].
  exact (removeAllSocketListeners_other_channels (fun w => w)
           example_listening "networkChanged" Hn Ha).
Defined.

(** ** Native notifications after repeated registration *)

Lemma registerEventListeners_times_events n w :
  events (Nat.iter n registerEventListeners w) = events w.
Proof. induction n as [| n IH]; [reflexivity | exact IH]. Qed.

Lemma on_channel_app channel (l1 l2 : list (string * Fn)) :
  on_channel channel (l1 ++ l2) = on_channel channel l1 ++ on_channel channel l2.
Proof. unfold on_channel. now rewrite List.filter_app, map_app. Qed.

(** After [n] runs the account channel holds [n] functions more, each one
    bound to [onAccountsChanged]. *)
Lemma registerEventListeners_times_accounts n w :
  exists fs,
    on_channel "accountsChanged"
      (listeners (connection (Nat.iter n registerEventListeners w)))
    = on_channel "accountsChanged" (listeners (connection w)) ++ fs
    /\ length fs = n
    /\ Forall (fun f => exists k, f = Bound k OnAccountsChanged) fs.
Proof.
  induction n as [| n (fs & Hfs & Hlen & Hall)].
  - exists []. simpl. rewrite app_nil_r. repeat split. constructor.
  - exists (fs ++ [Bound (nextBound (Nat.iter n registerEventListeners w))
                     OnAccountsChanged]).
    split; [| split].
    + change (Nat.iter (S n) registerEventListeners w)
        with (registerEventListeners (Nat.iter n registerEventListeners w)).
      rewrite registerEventListeners_listeners, on_channel_app, Hfs.
      now rewrite <- app_assoc.
    + rewrite length_app. simpl. lia.
    + apply Forall_app. split; [exact Hall |]. constructor; [eauto | constructor].
Qed.

(** Each function bound to [onAccountsChanged] delivers the accounts once
    to every listener under [accountsChanged], and changes nothing else. *)
Lemma call_all_accounts accounts fs :
  forall w,
    Forall (fun f => exists k, f = Bound k OnAccountsChanged) fs ->
    call_all fs [accounts] w
    = Some (set_trace
              (trace w
                 ++ concat (repeat (accounts_deliveries accounts w) (length fs)))
              w).
Proof.
  induction fs as [| f fs IH]; intros w Hall.
  - simpl. now rewrite app_nil_r, set_trace_same.
  - apply Forall_cons in Hall as [[k ->] Hall].
    simpl. rewrite IH by exact Hall.
    unfold onAccountsChanged, emit, accounts_deliveries, arg. simpl.
    f_equal. destruct w. simpl. now rewrite <- app_assoc.
Qed.

(** X5.  Starting where the transport has no listener on
    [accountsChanged], after [n] runs of [registerEventListeners] one native
    [accountsChanged] notification delivers the accounts, unchanged, [n]
    times to every listener the adapter holds under [accountsChanged], in
    registration order within each round, and changes nothing but the
    trace; with [n = 0] nothing is delivered. *)
Theorem accountsChanged_delivered_once_per_registration n accounts w :
  on_channel "accountsChanged" (listeners (connection w)) = [] ->
  native_notify "accountsChanged" [accounts]
    (Nat.iter n registerEventListeners w)
  = Some (set_trace
            (trace (Nat.iter n registerEventListeners w)
               ++ concat (repeat (accounts_deliveries accounts w) n))
            (Nat.iter n registerEventListeners w)).
Proof.
  intros Hnone. unfold native_notify.
  destruct (registerEventListeners_times_accounts n w) as (fs & Hfs & Hlen & Hall).
  rewrite Hfs, Hnone. simpl.
  rewrite call_all_accounts by exact Hall.
  unfold accounts_deliveries.
  now rewrite registerEventListeners_times_events, Hlen.
Qed.

Lemma accountsChanged_delivered_once_per_registration_example :
  on_channel "accountsChanged" (listeners (connection example_subscribed)) = []
  /\ native_notify "accountsChanged" [VArr [VStr "0xabc"]]
       (Nat.iter 3 registerEventListeners example_subscribed)
     = Some (set_trace
               (trace (Nat.iter 3 registerEventListeners example_subscribed)
                  ++ concat
                       (repeat
                          (accounts_deliveries (VArr [VStr "0xabc"])
                             example_subscribed) 3))
               (Nat.iter 3 registerEventListeners example_subscribed)).
Proof.
  split; [reflexivity |].
  apply (accountsChanged_delivered_once_per_registration 3
           (VArr [VStr "0xabc"]) example_subscribed).
  reflexivity.
Defined.

Lemma on_channel_registrations_other channel n :
  ~ In channel native_channels ->
  on_channel channel (registrations n) = [].
Proof.
  intros Hnot. unfold on_channel, registrations. cbn [List.filter fst].
  repeat match goal with
  | |- context [String.eqb ?a channel] =>
      destruct (String.eqb_spec a channel) as [Heq | _];
        [exfalso; apply Hnot; rewrite <- Heq; simpl; tauto |]
  end.
  reflexivity.
Qed.

(** X6.  [registerEventListeners] subscribes to [accountsChanged],
    [networkChanged], [data] and [error] and to nothing else: a native
    notification on any other channel (such as [close], [connect] or
    [message]) on which the transport had no listener before reaches no
    handler of the adapter and leaves the state as it is, however many times
    the listeners were registered. *)
Theorem other_channels_are_not_listened_to channel args n w :
  ~ In channel native_channels ->
  on_channel channel (listeners (connection w)) = [] ->
  native_notify channel args (Nat.iter n registerEventListeners w)
  = Some (Nat.iter n registerEventListeners w).
Proof.
  intros Hnot Hnone. unfold native_notify.
  assert (H : on_channel channel
                (listeners (connection (Nat.iter n registerEventListeners w)))
              = []).
  { induction n as [| n IH]; [exact Hnone |].
    change (Nat.iter (S n) registerEventListeners w)
      with (registerEventListeners (Nat.iter n registerEventListeners w)).
    rewrite registerEventListeners_listeners, on_channel_app, IH.
    now apply on_channel_registrations_other. }
  now rewrite H.
Qed.

Lemma other_channels_are_not_listened_to_example :
  ~ In "message" native_channels
  /\ on_channel "message" (listeners (connection example_subscribed)) = []
  /\ native_notify "message" [VStr "ignorable"; example_ok_response]
       (Nat.iter 2 registerEventListeners example_subscribed)
     = Some (Nat.iter 2 registerEventListeners example_subscribed).
Proof.
  assert (Hnot : ~ In "message" native_channels).
  { simpl. intros H. repeat destruct H as [H | H]; try discriminate H. exact H. }
  split; [exact Hnot |]. split; [reflexivity |].
  exact (other_channels_are_not_listened_to "message"
           [VStr "ignorable"; example_ok_response] 2 example_subscribed
           Hnot eq_refl).
Defined.

(** ** Calls in flight *)

Lemma outcome_not_pending error response : outcome error response <> Pending.
Proof. unfold outcome. now destruct (truthy error). Qed.

Lemma sendPayload_callback_written payload p error response w :
  written (connection (sendPayload_callback payload p error response w))
  = written (connection w).
Proof.
  rewrite sendPayload_callback_eq.
  destruct (settle_frame p (outcome error response)
              (log (settle_call p error response)
                 (removeAllListeners (payload_id payload) w))) as (_ & _ & ->).
  simpl. apply removeAllListeners_frame.
Qed.

(** The callback of a promise that has settled leaves the store as it is. *)
Lemma sendPayload_callback_promises_settled payload p st error response w :
  promises w !! p = Some (Root st) -> st <> Pending ->
  promises (sendPayload_callback payload p error response w) = promises w.
Proof.
  intros H Hst. rewrite sendPayload_callback_eq.
  destruct (removeAllListeners_frame (payload_id payload) w) as [Hp _].
  unfold settle. simpl. rewrite Hp, H.
  destruct st; [contradiction | |]; simpl; exact Hp.
Qed.

(** Completing a write whose promise is pending. *)
Lemma complete_pending k payload p error response w :
  written (connection w) !! k = Some (payload, p) ->
  promises w !! p = Some (Root Pending) ->
  promises (complete k error response w)
  = <[p := Root (outcome error response)]> (promises w)
  /\ written (connection (complete k error response w))
     = written (connection w).
Proof.
  intros Hk Hp. unfold complete. rewrite Hk. split.
  - now apply sendPayload_callback_promises.
  - apply sendPayload_callback_written.
Qed.

(** X7.  Two calls in flight settle separately, in whatever order the
    transport answers: completing the second write first settles the second
    promise with its own outcome and leaves the first pending; completing
    the first write afterwards settles the first with its own outcome and
    leaves the second as it was. *)
Theorem in_flight_calls_settle_separately first second e1 r1 e2 r2 w0 :
  let p1 := fst (sendPayload first w0) in
  let w1 := snd (sendPayload first w0) in
  let p2 := fst (sendPayload second w1) in
  let w2 := snd (sendPayload second w1) in
  let k1 := length (written (connection w0)) in
  let after2 := complete (S k1) e2 r2 w2 in
  let after21 := complete k1 e1 r1 after2 in
  p1 <> p2
  /\ promise_state p1 w2 = Some Pending
  /\ promise_state p2 w2 = Some Pending
  /\ promise_state p1 after2 = Some Pending
  /\ promise_state p2 after2 = Some (outcome e2 r2)
  /\ promise_state p1 after21 = Some (outcome e1 r1)
  /\ promise_state p2 after21 = Some (outcome e2 r2).
Proof.
  intros p1 w1 p2 w2 k1 after2 after21.
  set (ps := promises w0). set (ws := written (connection w0)).
  assert (Hp1 : p1 = length ps) by reflexivity.
  assert (Hp2 : p2 = S (length ps)).
  { subst p2 w1. simpl. rewrite length_app. simpl. fold ps. lia. }
  assert (HP : promises w2 = (ps ++ [Root Pending]) ++ [Root Pending])
    by reflexivity.
  assert (HW : written (connection w2) = (ws ++ [(first, p1)]) ++ [(second, p2)])
    by reflexivity.
  assert (Hne : p1 <> p2) by lia.
  assert (L1 : promises w2 !! p1 = Some (Root Pending)).
  { rewrite HP, Hp1, lookup_app_l by (rewrite length_app; simpl; lia).
    now rewrite list_lookup_middle. }
  assert (L2 : promises w2 !! p2 = Some (Root Pending)).
  { rewrite HP, Hp2. apply list_lookup_middle. rewrite length_app. simpl. lia. }
  assert (K2 : written (connection w2) !! S k1 = Some (second, p2)).
  { rewrite HW. apply list_lookup_middle. rewrite length_app. simpl.
    subst k1. fold ws. lia. }
  assert (K1 : written (connection w2) !! k1 = Some (first, p1)).
  { rewrite HW, lookup_app_l by (rewrite length_app; simpl; subst k1; fold ws; lia).
    now rewrite list_lookup_middle. }
  destruct (complete_pending (S k1) second p2 e2 r2 w2 K2 L2) as [A2 B2].
  fold after2 in A2, B2.
  assert (L1' : promises after2 !! p1 = Some (Root Pending)).
  { rewrite A2, list_lookup_insert_ne by lia. exact L1. }
  assert (K1' : written (connection after2) !! k1 = Some (first, p1))
    by (rewrite B2; exact K1).
  destruct (complete_pending k1 first p1 e1 r1 after2 K1' L1') as [A1 _].
  fold after21 in A1.
  assert (Hlt1 : p1 < length (promises w2))
    by (apply lookup_lt_is_Some; eauto).
  assert (Hlt2 : p2 < length (promises w2))
    by (apply lookup_lt_is_Some; eauto).
  unfold promise_state.
  rewrite L1, L2, L1', A1, A2.
  rewrite list_lookup_insert_eq by exact Hlt2.
  rewrite list_lookup_insert_eq by (rewrite length_insert; exact Hlt1).
  rewrite list_lookup_insert_ne by lia.
  rewrite list_lookup_insert_eq by exact Hlt2.
  repeat split. exact Hne.
Qed.

(** X8.  The callback has no guard of its own against a second
    invocation: if the transport completes the same write twice, the second
    run performs the cleanup and the settling call again, but the promise
    keeps the outcome of the first completion. *)
Theorem repeated_completion_keeps_first_outcome payload e1 r1 e2 r2 w0 :
  let p := fst (sendPayload payload w0) in
  let w := snd (sendPayload payload w0) in
  let k := length (written (connection w0)) in
  let once := complete k e1 r1 w in
  let twice := complete k e2 r2 once in
  promise_state p once = Some (outcome e1 r1)
  /\ promise_state p twice = Some (outcome e1 r1)
  /\ promises twice = promises once
  /\ exists mid,
       trace twice
       = trace once ++ CallRemoveAllListeners (payload_id payload) :: mid
           ++ [settle_call p e2 r2]
       /\ forallb (fun e => negb (is_settle_call e)) mid = true.
Proof.
  intros p w k once twice.
  assert (H1 : promise_state p once = Some (outcome e1 r1))
    by apply complete_sendPayload_settles.
  assert (Eonce : once = sendPayload_callback payload p e1 r1 w)
    by apply complete_sendPayload.
  assert (Hw : promises w !! p = Some (Root Pending)).
  { unfold w, p. simpl. now rewrite list_lookup_middle. }
  assert (Hk : written (connection once) !! k = Some (payload, p)).
  { rewrite Eonce, sendPayload_callback_written.
    unfold w, k, p. simpl. now rewrite list_lookup_middle. }
  assert (Hp : promises once !! p = Some (Root (outcome e1 r1))).
  { rewrite Eonce, sendPayload_callback_promises by exact Hw.
    apply list_lookup_insert_eq. apply lookup_lt_is_Some. eauto. }
  assert (Heq : twice = sendPayload_callback payload p e2 r2 once).
  { subst twice. unfold complete. now rewrite Hk. }
  assert (Hsame : promises twice = promises once).
  { rewrite Heq. eapply sendPayload_callback_promises_settled;
      [exact Hp | apply outcome_not_pending]. }
  split; [exact H1 |].
  split; [unfold promise_state in *; now rewrite Hsame |].
  split; [exact Hsame |].
  rewrite Heq. apply sendPayload_callback_trace.
Qed.

(** ** The queued methods after a batch *)

Lemma forEach_method_heap moduleInstance methods :
  forall acc w,
    Forall (fun m => m < length (heap w)) methods ->
    exists payload w',
      forEach_method methods moduleInstance acc w = Some (payload, w')
      /\ length (heap w') = length (heap w)
      /\ (forall m obj, heap w !! m = Some obj ->
            exists obj',
              heap w' !! m = Some obj'
              /\ beforeExecution obj' = beforeExecution obj
              /\ mdata obj'
                 = Nat.iter (count_occ Nat.eq_dec methods m)
                     (beforeExecution obj moduleInstance) (mdata obj)).
Proof.
  induction methods as [| m0 methods IH]; intros acc w Hvalid.
  - exists acc, w. repeat split. intros m obj H. exists obj. now repeat split.
  - apply Forall_cons in Hvalid as [Hm Hrest].
    destruct (proj2 (lookup_lt_is_Some (heap w) m0) Hm) as [obj0 Hobj0].
    set (obj0' := mkMethod (beforeExecution obj0 moduleInstance (mdata obj0))
                    (beforeExecution obj0)).
    set (w1 := set_heap (<[m0 := obj0']> (heap w))
                 (log (CallBeforeExecution m0 moduleInstance) w)).
    set (req := mkRequest "2.0" (VNum (messageId w))
                  (rpcMethod (mdata obj0')) (parameters (mdata obj0'))).
    set (w2 := set_messageId (messageId w + 1)%Z
                 (log (CallToPayload (method req) (params req)) w1)).
    destruct (IH (acc ++ [req]) w2) as (payload & w' & Hrun & Hlen & Hheap).
    { simpl. eapply Forall_impl; [exact Hrest |].
      intros x Hx. simpl in Hx. now rewrite length_insert. }
    exists payload, w'.
    split.
    { simpl. unfold call_beforeExecution. rewrite Hobj0. simpl.
      rewrite list_lookup_insert_eq by exact Hm.
      fold obj0'. unfold toPayload. simpl. exact Hrun. }
    split.
    { rewrite Hlen. simpl. apply length_insert. }
    intros m obj Hobj.
    destruct (Nat.eq_dec m0 m) as [-> | Hne].
    + assert (obj = obj0) by congruence. subst obj.
      destruct (Hheap m obj0') as (obj' & H1 & H2 & H3).
      { simpl. now apply list_lookup_insert_eq. }
      exists obj'. split; [exact H1 |]. split; [exact H2 |].
      rewrite H3. simpl.
      destruct (Nat.eq_dec m m) as [_ | Hc]; [| contradiction].
      symmetry.
      apply (Nat.iter_succ_r _ (beforeExecution obj0 moduleInstance)).
    + destruct (Hheap m obj) as (obj' & H1 & H2 & H3).
      { simpl. now rewrite list_lookup_insert_ne. }
      exists obj'. split; [exact H1 |]. split; [exact H2 |].
      rewrite H3. simpl.
      destruct (Nat.eq_dec m0 m) as [Hc | _]; [contradiction | reflexivity].
Qed.

(** X9.  [sendBatch] changes the queued method objects in place and
    nothing else about them: afterwards every method object has had its
    hook applied to its state as many times as the queue refers to it (an
    object that is not queued is as it was), each object keeps its hook, and
    no object is added or removed. *)
Theorem sendBatch_runs_hooks_in_place methods moduleInstance w0 :
  Forall (fun m => m < length (heap w0)) methods ->
  exists p w,
    sendBatch methods moduleInstance w0 = Some (p, w)
    /\ length (heap w) = length (heap w0)
    /\ (forall m obj, heap w0 !! m = Some obj ->
          exists obj',
            heap w !! m = Some obj'
            /\ beforeExecution obj' = beforeExecution obj
            /\ mdata obj'
               = Nat.iter (count_occ Nat.eq_dec methods m)
                   (beforeExecution obj moduleInstance) (mdata obj)).
Proof.
  intros Hvalid.
  destruct (forEach_method_heap moduleInstance methods [] w0 Hvalid)
    as (payload & w1 & Hrun & Hlen & Hheap).
  exists (fst (sendPayload (Batch payload) w1)),
    (snd (sendPayload (Batch payload) w1)).
  split; [unfold sendBatch; now rewrite Hrun |].
  split; [exact Hlen | exact Hheap].
Qed.

Lemma sendBatch_runs_hooks_in_place_example :
  Forall (fun m => m < length (heap example_queueing)) [0; 1; 0]
  /\ exists p w,
       sendBatch [0; 1; 0] (VStr "module") example_queueing = Some (p, w)
       /\ length (heap w) = length (heap example_queueing)
       /\ (forall m obj, heap example_queueing !! m = Some obj ->
             exists obj',
               heap w !! m = Some obj'
               /\ beforeExecution obj' = beforeExecution obj
               /\ mdata obj'
                  = Nat.iter (count_occ Nat.eq_dec [0; 1; 0] m)
                      (beforeExecution obj (VStr "module")) (mdata obj)).
Proof.
  assert (H : Forall (fun m => m < length (heap example_queueing)) [0; 1; 0]).
  { repeat constructor. }
  split; [exact H |].
  exact (sendBatch_runs_hooks_in_place [0; 1; 0] (VStr "module")
           example_queueing H).
Defined.

(** ** What [removeAllListeners] asks of the transport *)

(** X10.  Whatever the event and the state, one run of
    [removeAllListeners] asks the transport for at most one removal, and
    that removal is one of four: [onNetworkChanged] on [networkChanged],
    [onAccountsChanged] on [accountsChanged], [onMessage] on [data] or
    [onError] on [error], each time the prototype method.  The ready handler
    that [registerEventListeners] attaches on [networkChanged] is never
    named, and the inherited removal always runs last. *)
Theorem removeAllListeners_asks_at_most_one_removal event w :
  exists mid,
    trace (removeAllListeners event w)
    = trace w ++ CallRemoveAllListeners event :: mid
        ++ [CallSuperRemoveAllListeners event]
    /\ length mid <= 1
    /\ Forall (fun e => In e switch_removals) mid
    /\ ~ In (CallRemoveListener "networkChanged" (Proto OnReady)) mid.
Proof.
  unfold removeAllListeners. cbn [SOCKET_NETWORK_CHANGED SOCKET_ACCOUNTS_CHANGED
    SOCKET_MESSAGE SOCKET_ERROR log set_trace].
  repeat match goal with |- context [if ?c then _ else _] => destruct c end;
    [eexists [_] | eexists [_] | eexists [_] | eexists [_] | exists []];
    (split; [destruct event; simpl; rewrite <- ?app_assoc; reflexivity |]);
    (split; [simpl; lia |]);
    (split; [repeat constructor; simpl; tauto |]);
    simpl; intros H; repeat destruct H as [H | H]; try discriminate H; exact H.
Qed.
